(** * fix_contentservice.py: the two regular-expression rewrites and the script around them

    The script reads one TypeScript file, applies two [re.sub] calls to its
    text and writes the text back.  The development embeds

    - the text as a list of Unicode code points (a Python [str]);
    - the two patterns, atom by atom, and a backtracking matcher with the
      priorities of Python's [re] (greedy repetition longest first, lazy
      repetition shortest first, first success wins);
    - [re.sub]: leftmost, non-overlapping matches, each replaced by the
      expanded template;
    - the script itself as a step function on a world made of a file system,
      a standard output, a clock, arguments and an environment. *)

From Stdlib Require Import List NArith Arith Bool String Ascii Lia.
From stdpp Require Import base gmap strings.
Import ListNotations.

Local Open Scope nat_scope.

(** ** Text *)

Module Text.

(** A character is a code point, a text is a Python [str]. *)
Definition char := N.
Definition text := list char.

Definition of_ascii (a : ascii) : char := N_of_ascii a.

Fixpoint str (s : string) : text :=
  match s with
  | EmptyString => []
  | String a s' => of_ascii a :: str s'
  end.

(** [\s] on a [str] pattern: the code points for which [str.isspace] holds. *)
Definition is_space (c : char) : bool :=
  ((9 <=? c) && (c <=? 13) ||
   (28 <=? c) && (c <=? 32) ||
   (c =? 133) || (c =? 160) || (c =? 5760) ||
   (8192 <=? c) && (c <=? 8202) ||
   (c =? 8232) || (c =? 8233) || (c =? 8239) || (c =? 8287) ||
   (c =? 12288))%N.

Fixpoint starts_with (p s : text) : bool :=
  match p, s with
  | [], _ => true
  | a :: p', b :: s' => (a =? b)%N && starts_with p' s'
  | _ :: _, [] => false
  end.

(** [occurs p s]: [p in s] of Python. *)
Fixpoint occurs (p s : text) : bool :=
  starts_with p s ||
  match s with
  | [] => false
  | _ :: s' => occurs p s'
  end.

End Text.
Export Text.

(** ** Patterns *)

Module Regex.

(** The character classes the two patterns use. *)
Inductive cls :=
| Space                    (* \s *)
| NoneOf (l : list char)   (* [^...] *)
| AnyChar.                 (* . under re.DOTALL *)

Definition mem (k : cls) (c : char) : bool :=
  match k with
  | Space => is_space c
  | NoneOf l => negb (existsb (N.eqb c) l)
  | AnyChar => true
  end.

(** A pattern is a sequence of atoms; every repetition of the two patterns is
    over a single character class. *)
Inductive atom :=
| Lit (c : char)
| Rep (k : cls) (plus greedy : bool)   (* star, plus, lazy star, lazy plus *)
| GOpen (g : nat)
| GClose (g : nat).

Definition pattern := list atom.

Definition lits (s : string) : pattern := map Lit (str s).
Definition star (k : cls) : atom := Rep k false true.
Definition plus (k : cls) : atom := Rep k true true.
Definition lazy_star (k : cls) : atom := Rep k false false.

(** Group boundaries seen so far, latest first. *)
Inductive mark :=
| MOpen (g pos : nat)
| MClose (g pos : nat).

Definition result := option (nat * list mark).

Section Repeat.
Variable p : char -> bool.
Variable k : text -> nat -> result.

(** Greedy: as many as possible, then one less at a time. *)
Fixpoint star_greedy (s : text) (pos : nat) : result :=
  match s with
  | c :: s' =>
      if p c then
        match star_greedy s' (S pos) with
        | Some r => Some r
        | None => k s pos
        end
      else k s pos
  | [] => k [] pos
  end.

(** Lazy: as few as possible, then one more at a time. *)
Fixpoint star_lazy (s : text) (pos : nat) : result :=
  match k s pos with
  | Some r => Some r
  | None =>
      match s with
      | c :: s' => if p c then star_lazy s' (S pos) else None
      | [] => None
      end
  end.

Definition repeat_cls (plus greedy : bool) (s : text) (pos : nat) : result :=
  let go := if greedy then star_greedy else star_lazy in
  if plus then
    match s with
    | c :: s' => if p c then go s' (S pos) else None
    | [] => None
    end
  else go s pos.
End Repeat.

(** [rmatch r s pos ms]: match [r] against the text [s] that starts at
    position [pos]; the end position and the marks of the first success. *)
Fixpoint rmatch (r : pattern) (s : text) (pos : nat) (ms : list mark) : result :=
  match r with
  | [] => Some (pos, ms)
  | Lit c :: r' =>
      match s with
      | x :: s' => if (x =? c)%N then rmatch r' s' (S pos) ms else None
      | [] => None
      end
  | Rep k pl gr :: r' =>
      repeat_cls (mem k) (fun s' pos' => rmatch r' s' pos' ms) pl gr s pos
  | GOpen g :: r' => rmatch r' s pos (MOpen g pos :: ms)
  | GClose g :: r' => rmatch r' s pos (MClose g pos :: ms)
  end.

Definition match_at (r : pattern) (s : text) : result := rmatch r s 0 [].

(** Replacement templates: literal text and group references. *)
Inductive titem :=
| TText (t : text)
| TGroup (g : nat).

Definition template := list titem.

Fixpoint open_of (g : nat) (ms : list mark) : option nat :=
  match ms with
  | [] => None
  | MOpen g' p :: ms' => if g' =? g then Some p else open_of g ms'
  | MClose _ _ :: ms' => open_of g ms'
  end.

Fixpoint close_of (g : nat) (ms : list mark) : option nat :=
  match ms with
  | [] => None
  | MClose g' p :: ms' => if g' =? g then Some p else close_of g ms'
  | MOpen _ _ :: ms' => close_of g ms'
  end.

Definition slice (b e : nat) (s : text) : text := firstn (e - b) (skipn b s).

Definition group (g : nat) (ms : list mark) (s : text) : text :=
  match open_of g ms, close_of g ms with
  | Some b, Some e => slice b e s
  | _, _ => []
  end.

Fixpoint expand (t : template) (ms : list mark) (s : text) : text :=
  match t with
  | [] => []
  | TText u :: t' => u ++ expand t' ms s
  | TGroup g :: t' => group g ms s ++ expand t' ms s
  end.

(** [re.sub]: scan from the left; at a match emit the expanded template and
    resume after the match, otherwise copy one character.  The patterns of
    the script consume at least one character, so the empty-match branch is
    there for completeness only.  [fuel] bounds the number of scan steps. *)
Fixpoint sub_fuel (fuel : nat) (r : pattern) (t : template) (s : text) : text :=
  match fuel with
  | 0 => s
  | S fuel' =>
      let step :=
        match s with
        | [] => []
        | c :: s' => c :: sub_fuel fuel' r t s'
        end in
      match match_at r s with
      | Some (e, ms) =>
          expand t ms s ++
          (if e =? 0 then step else sub_fuel fuel' r t (skipn e s))
      | None => step
      end
  end.

Definition sub (r : pattern) (t : template) (s : text) : text :=
  sub_fuel (S (length s)) r t s.

End Regex.
Export Regex.

(** ** The two rules of the script *)

Module Rules.

Definition comma : char := 44%N.
Definition rbrace : char := 125%N.

(** Rule A, pattern (written with a blank before each closing parenthesis):
    (\s+return\s+{\s*success:\s*true,\s*data:\s*[^,}]+, )\s*message:\s*[^}]+(\s*};\s* ) *)
Definition rexA : pattern :=
  [GOpen 1; plus Space] ++ lits "return" ++ [plus Space] ++ lits "{" ++
  [star Space] ++ lits "success:" ++ [star Space] ++ lits "true," ++
  [star Space] ++ lits "data:" ++ [star Space; plus (NoneOf [comma; rbrace])] ++
  lits "," ++ [GClose 1; star Space] ++ lits "message:" ++
  [star Space; plus (NoneOf [rbrace]); GOpen 2; star Space] ++ lits "};" ++
  [star Space; GClose 2].

(** Rule A, replacement: \1 timestamp: new Date().toISOString()\2 *)
Definition stamp : text := str " timestamp: new Date().toISOString()".
Definition tplA : template := [TGroup 1; TText stamp; TGroup 2].

(** Rule B, pattern (same convention):
    (\s+return\s+{\s*success:\s*false,\s*data:\s*[^,}]+, )\s*message:\s*(error\.response.*? )\s*(\s*};\s* ) *)
Definition rexB : pattern :=
  [GOpen 1; plus Space] ++ lits "return" ++ [plus Space] ++ lits "{" ++
  [star Space] ++ lits "success:" ++ [star Space] ++ lits "false," ++
  [star Space] ++ lits "data:" ++ [star Space; plus (NoneOf [comma; rbrace])] ++
  lits "," ++ [GClose 1; star Space] ++ lits "message:" ++
  [star Space; GOpen 2] ++ lits "error.response" ++
  [lazy_star AnyChar; GClose 2; star Space; GOpen 3; star Space] ++ lits "};" ++
  [star Space; GClose 3].

(** Rule B, replacement, a raw string:
    \1 error: { code: \'SERVICE_ERROR\', message: \2 }, timestamp: new Date().toISOString()\3
    In a raw string a backslash before a quote stays in the string, and the
    template parser of [re] keeps a backslash that precedes a character that
    is neither a letter nor a digit: the two characters backslash, quote
    reach the output. *)
Definition tplB : template :=
  [TGroup 1; TText (str " error: { code: \'SERVICE_ERROR\', message: ");
   TGroup 2; TText (str " }, timestamp: new Date().toISOString()"); TGroup 3].

Definition ruleA (s : text) : text := sub rexA tplA s.
Definition ruleB (s : text) : text := sub rexB tplB s.

(** The text between the read and the write. *)
Definition transform (s : text) : text := ruleB (ruleA s).

End Rules.
Export Rules.

(** ** What a pattern denotes, and where it cannot match *)

Module Shape.

(** The words of a pattern, groups ignored. *)
Fixpoint lang (r : pattern) (u : text) : Prop :=
  match r with
  | [] => u = []
  | Lit c :: r' => exists u', u = c :: u' /\ lang r' u'
  | Rep k pl _ :: r' =>
      exists w u', u = w ++ u' /\ forallb (mem k) w = true /\
                   (pl = true -> w <> []) /\ lang r' u'
  | GOpen _ :: r' => lang r' u
  | GClose _ :: r' => lang r' u
  end.

Definition no_match (r : pattern) (s : text) : bool :=
  match match_at r s with
  | Some _ => false
  | None => true
  end.

(** [quiet r n s]: no match of [r] begins at any of the first [n] positions
    of [s]. *)
Fixpoint quiet (r : pattern) (n : nat) (s : text) : bool :=
  match n with
  | 0 => true
  | S n' =>
      no_match r s &&
      match s with
      | [] => true
      | _ :: s' => quiet r n' s'
      end
  end.

(** No match of [r] anywhere in [s], the end included. *)
Definition silent (r : pattern) (s : text) : bool := quiet r (S (length s)) s.

Definition all_space (w : text) : bool := forallb is_space w.

(** [s] is empty or begins with a character that is not white space. *)
Definition tight (s : text) : bool :=
  match s with
  | [] => true
  | c :: _ => negb (is_space c)
  end.

Definition nonempty (s : text) : bool :=
  match s with
  | [] => false
  | _ :: _ => true
  end.

Fixpoint ends_tight (s : text) : bool :=
  match s with
  | [] => true
  | [c] => negb (is_space c)
  | _ :: s' => ends_tight s'
  end.

(** After leading white space, does [s] continue with [p]? *)
Fixpoint lead (p s : text) : bool :=
  match s with
  | [] => false
  | c :: s' => if is_space c then lead p s' else starts_with p s
  end.

Definition lead_close : text -> bool := lead (str "};").

(** The classes of the data and of the message of Rule A. *)
Definition K1 : cls := NoneOf [comma; rbrace].
Definition K2 : cls := NoneOf [rbrace].

(** A return block as the patterns read it: the white-space runs, the data
    expression, the message expression and the white space before the
    closing brace. *)
Record layout := Layout {
  ws_ret : text;    (* before return *)
  ws_brace : text;  (* between return and the opening brace *)
  ws_succ : text;   (* before success: *)
  ws_flag : text;   (* after success: *)
  ws_data : text;   (* before data: *)
  ws_dat : text;    (* after data: *)
  dat : text;       (* the data expression *)
  ws_msg : text;    (* before message: *)
  ws_val : text;    (* after message: *)
  msg : text;       (* the message expression *)
  ws_close : text;  (* before the closing brace *)
  ws_end : text     (* after the semicolon *)
}.

(** Group 1 of both patterns: up to and including the comma after the data. *)
Definition head (flag : string) (l : layout) : text :=
  ws_ret l ++ str "return" ++ ws_brace l ++ str "{" ++ ws_succ l ++
  str "success:" ++ ws_flag l ++ str flag ++ ws_data l ++ str "data:" ++
  ws_dat l ++ dat l ++ str ",".

Definition before_msg (l : layout) : text :=
  ws_msg l ++ str "message:" ++ ws_val l.

Definition tail (l : layout) : text :=
  before_msg l ++ msg l ++ ws_close l.

Definition closing (l : layout) : text := str "};" ++ ws_end l.

Definition block (flag : string) (l : layout) : text :=
  head flag l ++ tail l ++ closing l.

Definition blockA : layout -> text := block "true,".
Definition blockB : layout -> text := block "false,".

(** What the rules write for a block. *)
Definition outA (l : layout) : text := head "true," l ++ stamp ++ closing l.

Definition outB_with (code : text) (l : layout) : text :=
  head "false," l ++ str " error: { code: " ++ code ++ str ", message: " ++
  msg l ++ str " }, timestamp: new Date().toISOString()" ++ closing l.

(** The code literal as the template writes it, backslashes included. *)
Definition code_text : text := str "\'SERVICE_ERROR\'".
Definition outB : layout -> text := outB_with code_text.

Definition spaces_ok (l : layout) : bool :=
  all_space (ws_ret l) && nonempty (ws_ret l) &&
  all_space (ws_brace l) && nonempty (ws_brace l) &&
  all_space (ws_succ l) && all_space (ws_flag l) && all_space (ws_data l) &&
  all_space (ws_dat l) && all_space (ws_msg l) && all_space (ws_val l) &&
  all_space (ws_close l) && all_space (ws_end l).

Definition dat_ok (l : layout) : bool :=
  nonempty (dat l) && tight (dat l) &&
  forallb (mem (NoneOf [comma; rbrace])) (dat l).

(** A block Rule A rewrites. *)
Definition okA (l : layout) : bool :=
  spaces_ok l && dat_ok l &&
  nonempty (msg l) && tight (msg l) && forallb (mem (NoneOf [rbrace])) (msg l).

(** A block Rule B rewrites: the message begins with error.response and
    holds no closing brace followed by a semicolon. *)
Definition okB (l : layout) : bool :=
  spaces_ok l && dat_ok l &&
  starts_with (str "error.response") (msg l) &&
  ends_tight (msg l) &&
  negb (occurs (str "};") (skipn 14 (msg l))).

(** The output of [re.sub] cut into what was copied and what was replaced. *)
Inductive seg :=
| Keep (u : text)
| Hit (m out : text).

Definition seg_in (g : seg) : text :=
  match g with
  | Keep u => u
  | Hit m _ => m
  end.

Definition seg_out (g : seg) : text :=
  match g with
  | Keep u => u
  | Hit _ out => out
  end.

(** A replaced piece is a match of the pattern, replaced by its expanded
    template. *)
Definition seg_ok (r : pattern) (t : template) (g : seg) : Prop :=
  match g with
  | Keep _ => True
  | Hit m out =>
      exists rest ms, match_at r (m ++ rest) = Some (length m, ms) /\
                      out = expand t ms (m ++ rest)
  end.

(** The literal characters of a template. *)
Fixpoint tpl_chars (t : template) : text :=
  match t with
  | [] => []
  | TText u :: t' => u ++ tpl_chars t'
  | TGroup _ :: t' => tpl_chars t'
  end.

(** A block without the white space before return, and a layout with more
    white space after the semicolon. *)
Definition unled (flag : string) (l : layout) : text :=
  skipn (length (ws_ret l)) (block flag l).

Definition widen (l : layout) (w : text) : layout :=
  Layout (ws_ret l) (ws_brace l) (ws_succ l) (ws_flag l) (ws_data l)
         (ws_dat l) (dat l) (ws_msg l) (ws_val l) (msg l) (ws_close l)
         (ws_end l ++ w).

(** The part of Rule B's pattern before the lazy repetition. *)
Definition openB : pattern :=
  [GOpen 1; plus Space] ++ lits "return" ++ [plus Space] ++ lits "{" ++
  [star Space] ++ lits "success:" ++ [star Space] ++ lits "false," ++
  [star Space] ++ lits "data:" ++ [star Space; plus (NoneOf [comma; rbrace])] ++
  lits "," ++ [GClose 1; star Space] ++ lits "message:" ++
  [star Space; GOpen 2] ++ lits "error.response".

(** The part of Rule B's pattern after the lazy repetition. *)
Definition closeB : pattern :=
  [GClose 2; star Space; GOpen 3; star Space] ++ lits "};" ++
  [star Space; GClose 3].

(** *** Texts made of plain stretches and blocks *)

(** Both patterns begin with white space and the word return. *)
Definition kw : text := str "return".

(** [opens s]: [s] begins with white space that is followed by return. *)
Definition opens (s : text) : bool :=
  match s with
  | [] => false
  | c :: _ => is_space c && lead kw s
  end.

(** [calm n s]: none of the first [n] positions of [s] opens. *)
Fixpoint calm (n : nat) (s : text) : bool :=
  match n with
  | 0 => true
  | S n' =>
      negb (opens s) &&
      match s with
      | [] => true
      | _ :: s' => calm n' s'
      end
  end.

(** [inert u]: nowhere in [u], taken alone, is white space followed by
    return. *)
Definition inert (u : text) : bool := calm (length u) u.

(** [no_starts z]: [z] begins with no end piece of the word return
    (return, eturn, turn, urn, rn, n). *)
Definition no_starts (z : text) : bool :=
  forallb (fun k => negb (starts_with (skipn k kw) z)) (seq 0 6).

(** [sealed z]: a text put before [z] can neither complete a return with
    the beginning of [z] nor find one after white space of [z]. *)
Definition sealed (z : text) : bool := negb (lead kw z) && no_starts z.

(** Group 1 without the white space before return, and a layout with other
    white space there. *)
Definition hcore (flag : string) (l : layout) : text :=
  str "return" ++ ws_brace l ++ str "{" ++ ws_succ l ++
  str "success:" ++ ws_flag l ++ str flag ++ ws_data l ++ str "data:" ++
  ws_dat l ++ dat l ++ str ",".

Definition relead (l : layout) (w : text) : layout :=
  Layout w (ws_brace l) (ws_succ l) (ws_flag l) (ws_data l)
         (ws_dat l) (dat l) (ws_msg l) (ws_val l) (msg l) (ws_close l)
         (ws_end l).

(** What Rule B writes around the message. *)
Definition err_open : text :=
  str " error: { code: " ++ code_text ++ str ", message: ".
Definition err_close : text := str " }, timestamp: new Date().toISOString()".

(** A text as a sequence of plain stretches and of blocks, each block a
    success block (Rule A) or an error block (Rule B), as it was written
    by hand or as its rule has rewritten it. *)
Inductive kind := KA | KB.
Inductive state := Raw | Done.

Inductive item :=
| Plain (u : text)
| Block (k : kind) (st : state) (l : layout).

Definition render_item (i : item) : text :=
  match i with
  | Plain u => u
  | Block KA Raw l => blockA l
  | Block KB Raw l => blockB l
  | Block KA Done l => outA l
  | Block KB Done l => outB l
  end.

(** A block between the white space before return and the white space
    after the semicolon. *)
Definition middle (k : kind) (st : state) (l : layout) : text :=
  match k, st with
  | KA, Raw => hcore "true," l ++ tail l ++ str "};"
  | KB, Raw => hcore "false," l ++ tail l ++ str "};"
  | KA, Done => hcore "true," l ++ stamp ++ str "};"
  | KB, Done => hcore "false," l ++ err_open ++ msg l ++ err_close ++ str "};"
  end.

Fixpoint render (its : list item) : text :=
  match its with
  | [] => []
  | i :: its' => render_item i ++ render its'
  end.

(** What each rule does to an item. *)
Definition stepA (i : item) : item :=
  match i with
  | Block KA Raw l => Block KA Done l
  | _ => i
  end.

Definition stepB (i : item) : item :=
  match i with
  | Block KB Raw l => Block KB Done l
  | _ => i
  end.

(** A block the sequence may hold: one its rule can read, in whose data
    and message no white space is followed by return, and neither of which
    begins with return. *)
Definition block_ok (k : kind) (l : layout) : bool :=
  match k with
  | KA => okA l
  | KB => okB l
  end &&
  inert (dat l) && negb (lead kw (dat l)) &&
  inert (msg l) && negb (lead kw (msg l)).

(** [alive r s]: reading [s] from its beginning, the pattern [r] is not
    refused before the end of [s]: a word of [r] begins [s], or [s] can be
    continued to a word of [r].  When [alive r s] is false no match of [r]
    begins at [s], whatever follows [s]. *)
Section Splits.
Variable p : char -> bool.
Variable k : text -> bool.

Fixpoint any_split (s : text) : bool :=
  k s ||
  match s with
  | [] => false
  | c :: s' => p c && any_split s'
  end.
End Splits.

Fixpoint alive (r : pattern) (s : text) : bool :=
  match r with
  | [] => true
  | Lit c :: r' =>
      match s with
      | [] => true
      | x :: s' => (x =? c)%N && alive r' s'
      end
  | Rep k pl _ :: r' =>
      if pl then
        match s with
        | [] => true
        | c :: s' => mem k c && any_split (mem k) (alive r') s'
        end
      else any_split (mem k) (alive r') s
  | GOpen _ :: r' => alive r' s
  | GClose _ :: r' => alive r' s
  end.

(** One of two texts begins the other. *)
Definition compat (s w : text) : Prop :=
  (exists z, s = w ++ z) \/ (exists z, w = s ++ z).

(** [may_begin s]: [s] begins with white space followed by return, and one
    of the two patterns is not refused before the end of [s]. *)
Definition may_begin (s : text) : bool :=
  opens s && (alive rexA s || alive rexB s).

(** [steady n s]: at none of the first [n] positions of [s] may a match
    begin. *)
Fixpoint steady (n : nat) (s : text) : bool :=
  match n with
  | 0 => true
  | S n' =>
      negb (may_begin s) &&
      match s with
      | [] => true
      | _ :: s' => steady n' s'
      end
  end.

(** [still u]: wherever in [u] white space is followed by return, both
    patterns are refused before the end of [u]. *)
Definition still (u : text) : bool := steady (length u) u.

Definition blank : char := 32%N.

Inductive prev := AtStart | AfterPlain | AfterBlock.

(** [good p its]: plain stretches and blocks alternate (a block is never
    followed by a block); a plain stretch is still; a plain stretch before
    a block does not end with white space; a plain stretch after a block
    does not begin with white space (the white space after the semicolon
    belongs to the block), and with a blank before it no match may begin
    at that blank. *)
Fixpoint good (p : prev) (its : list item) : bool :=
  match its with
  | [] => true
  | Plain u :: its' =>
      match p with
      | AtStart => true
      | AfterPlain => false
      | AfterBlock => tight u && negb (may_begin (blank :: u))
      end &&
      nonempty u && still u &&
      match its' with
      | [] => true
      | _ :: _ => ends_tight u
      end &&
      good AfterPlain its'
  | Block k _ l :: its' =>
      match p with
      | AfterBlock => false
      | _ => true
      end &&
      block_ok k l && good AfterBlock its'
  end.

End Shape.
Export Shape.

(** ** The script *)

Module Script.

Definition byte := N.

(** The text layer of [open(..., encoding='utf-8')], newline translation
    included: decoding can fail, and what was decoded (or built from it and
    ASCII text) can be encoded. *)
Class Codec := {
  decode : list byte -> option text;
  encode : text -> list byte
}.

Record file := File {
  bytes : list byte;
  readable : bool;
  writable : bool
}.

Inductive mode := ModeR | ModeW.

Inductive event :=
| EvOpen (path : string) (m : mode) (encoding : string)
| EvRead (path : string)
| EvWrite (path : string) (data : list byte)
| EvPrint (line : string).

Inductive exn :=
| FileNotFoundError
| PermissionError
| UnicodeDecodeError.

(** What the process can see.  The script touches [fs], [stdout] and
    [trace] only; the rest is there to say so. *)
Record world := World {
  fs : gmap string file;
  stdout : list string;
  trace : list event;
  clock : N;
  argv : list string;
  environ : gmap string string
}.

Definition target : string :=
  "frontend/src/features/admin/services/contentService.ts".
Definition utf8 : string := "utf-8".
Definition confirmation : string := "Fixed contentService.ts".

Definition log (e : event) (w : world) : world :=
  World (fs w) (stdout w) (trace w ++ [e]) (clock w) (argv w) (environ w).

Definition opened_r (w : world) : world := log (EvOpen target ModeR utf8) w.

Definition set_fs (m : gmap string file) (w : world) : world :=
  World m (stdout w) (trace w) (clock w) (argv w) (environ w).

Definition set_clock (c : N) (w : world) : world :=
  World (fs w) (stdout w) (trace w) c (argv w) (environ w).

Definition put_line (s : string) (w : world) : world :=
  World (fs w) (stdout w ++ [s]) (trace w) (clock w) (argv w) (environ w).

(** State and exceptions. *)
Definition M (A : Type) : Type := world -> world * (exn + A).

Definition ret {A} (a : A) : M A := fun w => (w, inr a).
Definition raise {A} (e : exn) : M A := fun w => (w, inl e).
Definition bind {A B} (m : M A) (f : A -> M B) : M B :=
  fun w =>
    match m w with
    | (w', inl e) => (w', inl e)
    | (w', inr a) => f a w'
    end.

Notation "'do' x <- m ; k" := (bind m (fun x => k))
  (at level 10, x name, m at level 100, k at level 200).
Notation "'run_then' m ; k" := (bind m (fun _ => k))
  (at level 10, m at level 100, k at level 200).

Section WithCodec.
Context `{Codec}.

(** with open(path, 'r', encoding=enc) as f: content = f.read() *)
Definition read_text (path enc : string) : M text :=
  fun w =>
    let w1 := log (EvOpen path ModeR enc) w in
    match fs w !! path with
    | None => (w1, inl FileNotFoundError)
    | Some f =>
        if readable f then
          let w2 := log (EvRead path) w1 in
          match decode (bytes f) with
          | Some t => (w2, inr t)
          | None => (w2, inl UnicodeDecodeError)
          end
        else (w1, inl PermissionError)
    end.

(** with open(path, 'w', encoding=enc) as f: f.write(content) *)
Definition write_text (path enc : string) (content : text) : M unit :=
  fun w =>
    let w1 := log (EvOpen path ModeW enc) w in
    let store f :=
      let data := encode content in
      (log (EvWrite path data)
         (set_fs (<[path := File data (readable f) (writable f)]> (fs w)) w1),
       inr tt) in
    match fs w !! path with
    | None => store (File [] true true)
    | Some f => if writable f then store f else (w1, inl PermissionError)
    end.

(** print(line) *)
Definition print (line : string) : M unit :=
  fun w => (log (EvPrint line) (put_line line w), inr tt).

Definition main : M unit :=
  do content <- read_text target utf8;
  let content := ruleA content in
  let content := ruleB content in
  run_then write_text target utf8 content;
  print confirmation.

Definition run (w : world) : world * (exn + unit) := main w.
End WithCodec.

(** A codec for files of ASCII text, to run the script on examples. *)
Definition ascii_decode (bs : list byte) : option text :=
  if forallb (fun b => (b <? 128)%N) bs then Some bs else None.

#[export] Instance ascii_codec : Codec :=
  {| decode := ascii_decode; encode := fun t => t |}.

(** Worlds to run the script in. *)
Definition file_of (t : text) : file := File t true true.

Definition world_of (m : gmap string file) (c : N) : world :=
  World m [] [] c [] ∅.

(** Does the event change or open for writing a file? *)
Definition is_write (e : event) : bool :=
  match e with
  | EvOpen _ ModeW _ => true
  | EvWrite _ _ => true
  | _ => false
  end.

End Script.
Export Script.

(** ** Texts to run the rules on *)

Module Samples.

Definition sp : text := str " ".

(** return { success: true, data: items, message: 'ok' }; *)
Definition layA : layout :=
  Layout sp sp sp sp sp sp (str "items") sp sp (str "'ok'") sp [10%N].

(** return { success: false, data: null, message: error.response?.data || 'Failed' }; *)
Definition layB : layout :=
  Layout sp sp sp sp sp sp (str "null") sp sp
         (str "error.response?.data || 'Failed'") sp [10%N].

Definition before : text := str "try {".
Definition between : text := str "} catch (error) {".
Definition after : text := str "}".

(** A data expression with a comma. *)
Definition two_args_true : text :=
  str " return { success: true, data: f(a, b), message: 'ok' };".
Definition two_args_false : text :=
  str " return { success: false, data: f(a, b), message: error.response.data };".

(** Two success blocks with only white space between them. *)
Definition adjacent : text :=
  str " return { success: true, data: a, message: b }; return { success: true, data: c, message: d };".

(** A data expression that is a string with a comma and message: in it. *)
Definition comma_in_string : text :=
  str " return { success: true, data: 'a, message: b', message: 'ok' };".

(** An error block without its semicolon, then a success block. *)
Definition spanning : text :=
  str " return { success: false, data: null, message: error.response } return { success: true, data: x, message: 'ok' };".

(** A success block and an error block with plain text around them, in
    both orders. *)
Definition outline_ab : list item :=
  [Plain before; Block KA Raw layA; Plain between; Block KB Raw layB;
   Plain after].
Definition outline_ba : list item :=
  [Plain before; Block KB Raw layB; Plain between; Block KA Raw layA;
   Plain after].

(** An error block whose message is not built on error.response. *)
Definition plain_error : text :=
  str " return { success: false, data: null, message: 'Failed' };".

(** Plain text with returns of other shapes in it, and the two blocks
    among such text. *)
Definition early : text := str "if (!id) return null; try {".
Definition guard : text :=
  str "} catch (error) { if (!error.response)" ++ plain_error.
Definition bare_error : text :=
  str "return { success: false, data: null, message: 'Failed' }; }".
Definition outline_other : list item :=
  [Plain early; Block KA Raw layA; Plain guard; Block KB Raw layB;
   Plain bare_error].

(** File systems: the target with a success block in it, no target, a
    target that is not text, a target that cannot be written. *)
Definition disk : gmap string file :=
  {[ target := file_of (before ++ blockA layA ++ after) ]}.
Definition disk_missing : gmap string file := ∅.
Definition disk_binary : gmap string file :=
  {[ target := file_of [255%N] ]}.
Definition disk_plain : gmap string file :=
  {[ target := file_of plain_error ]}.
Definition disk_readonly : gmap string file :=
  {[ target := File (before ++ blockA layA ++ after) true false ]}.

(** An error block without its semicolon, then the error block whose
    message is not built on error.response. *)
Definition covered_error : text :=
  str " return { success: false, data: null, message: error.response.data }" ++
  plain_error.

End Samples.
Export Samples.

(** * Facts about the matcher *)

Module RegexFacts.

Section RepeatFacts.
Variable p : char -> bool.
Variable k : text -> nat -> result.

(** A success of a repetition is a success of what follows it, after a
    run of characters of the class. *)
Lemma star_greedy_sound s pos res :
  star_greedy p k s pos = Some res ->
  exists w s', s = w ++ s' /\ forallb p w = true /\
               k s' (pos + length w) = Some res.
Proof.
  revert pos. induction s as [|c s IH]; intros pos Hm; simpl in Hm.
  - exists [], []. simpl. rewrite Nat.add_0_r. auto.
  - destruct (p c) eqn:Hc.
    + destruct (star_greedy p k s (S pos)) eqn:Hrec.
      * injection Hm as <-. apply IH in Hrec.
        destruct Hrec as (w & s' & -> & Hw & Hk).
        exists (c :: w), s'. simpl. rewrite Hc, Hw.
        replace (pos + S (length w)) with (S pos + length w) by lia. auto.
      * exists [], (c :: s). simpl. rewrite Nat.add_0_r. auto.
    + exists [], (c :: s). simpl. rewrite Nat.add_0_r. auto.
Qed.

Lemma star_lazy_sound s pos res :
  star_lazy p k s pos = Some res ->
  exists w s', s = w ++ s' /\ forallb p w = true /\
               k s' (pos + length w) = Some res.
Proof.
  revert pos. induction s as [|c s IH]; intros pos Hm; simpl in Hm.
  - exists [], []. simpl. rewrite Nat.add_0_r.
    destruct (k [] pos); [auto | discriminate].
  - destruct (k (c :: s) pos) eqn:Hk.
    + injection Hm as <-. exists [], (c :: s). simpl.
      rewrite Nat.add_0_r. auto.
    + destruct (p c) eqn:Hc; [|discriminate].
      apply IH in Hm. destruct Hm as (w & s' & -> & Hw & Hk').
      exists (c :: w), s'. simpl. rewrite Hc, Hw.
      replace (pos + S (length w)) with (S pos + length w) by lia. auto.
Qed.

Lemma repeat_cls_sound pl gr s pos res :
  repeat_cls p k pl gr s pos = Some res ->
  exists w s', s = w ++ s' /\ forallb p w = true /\
               (pl = true -> w <> []) /\
               k s' (pos + length w) = Some res.
Proof.
  unfold repeat_cls. intros Hm.
  assert (Hgo : forall s pos,
             (if gr then star_greedy p k else star_lazy p k) s pos = Some res ->
             exists w s', s = w ++ s' /\ forallb p w = true /\
                          k s' (pos + length w) = Some res).
  { intros s0 pos0. destruct gr; [apply star_greedy_sound | apply star_lazy_sound]. }
  destruct pl.
  - destruct s as [|c s]; [discriminate|].
    destruct (p c) eqn:Hc; [|discriminate].
    apply Hgo in Hm. destruct Hm as (w & s' & -> & Hw & Hk).
    exists (c :: w), s'. simpl. rewrite Hc, Hw.
    replace (pos + S (length w)) with (S pos + length w) by lia.
    repeat split; auto; discriminate.
  - apply Hgo in Hm. destruct Hm as (w & s' & -> & Hw & Hk).
    exists w, s'. repeat split; auto; discriminate.
Qed.

(** Greedy repetition takes a whole run when what follows accepts there. *)
Lemma star_greedy_munch w s pos res :
  forallb p w = true ->
  star_greedy p k s (pos + length w) = Some res ->
  star_greedy p k (w ++ s) pos = Some res.
Proof.
  revert pos. induction w as [|c w IH]; intros pos Hw Hk; simpl in *.
  - rewrite Nat.add_0_r in Hk. exact Hk.
  - apply andb_prop in Hw. destruct Hw as [Hc Hw]. rewrite Hc.
    rewrite (IH (S pos)); auto.
    replace (S pos + length w) with (pos + S (length w)) by lia. exact Hk.
Qed.

Lemma star_greedy_stop s pos :
  match s with [] => true | c :: _ => negb (p c) end = true ->
  star_greedy p k s pos = k s pos.
Proof.
  destruct s as [|c s]; simpl; auto.
  intros Hc. apply negb_true_iff in Hc. now rewrite Hc.
Qed.

(** Lazy repetition goes on while what follows refuses. *)
Lemma star_lazy_skip z s pos :
  forallb p z = true ->
  (forall z1 z2, z = z1 ++ z2 -> z2 <> [] ->
                 k (z2 ++ s) (pos + length z1) = None) ->
  star_lazy p k (z ++ s) pos = star_lazy p k s (pos + length z).
Proof.
  revert pos. induction z as [|c z IH]; intros pos Hz Hk; simpl.
  - now rewrite Nat.add_0_r.
  - apply andb_prop in Hz. destruct Hz as [Hc Hz].
    pose proof (Hk [] (c :: z) eq_refl) as H0. simpl in H0.
    rewrite Nat.add_0_r in H0. rewrite H0; [|discriminate].
    rewrite Hc.
    assert (Hk' : forall z1 z2, z = z1 ++ z2 -> z2 <> [] ->
                                k (z2 ++ s) (S pos + length z1) = None).
    { intros z1 z2 -> Hne.
      specialize (Hk (c :: z1) z2 eq_refl Hne). simpl in Hk.
      replace (S pos + length z1) with (pos + S (length z1)) by lia.
      exact Hk. }
    rewrite (IH (S pos) Hz Hk'). f_equal. lia.
Qed.
End RepeatFacts.

End RegexFacts.

Module MatchFacts.
Import RegexFacts.

(** Every success reads a word of the pattern off the front of the text. *)
Lemma rmatch_sound r : forall s pos ms e ms',
  rmatch r s pos ms = Some (e, ms') ->
  exists u v, s = u ++ v /\ lang r u /\ e = pos + length u.
Proof.
  induction r as [|a r IH]; intros s pos ms e ms' Hm.
  - simpl in Hm. injection Hm as <- <-. exists [], s. simpl.
    repeat split; auto.
  - destruct a as [c|k pl gr|g|g]; simpl in Hm.
    + destruct s as [|x s]; [discriminate|].
      destruct (N.eqb_spec x c) as [->|]; [|discriminate].
      apply IH in Hm. destruct Hm as (u & v & -> & Hu & ->).
      exists (c :: u), v. simpl. repeat split; [eauto | lia].
    + apply repeat_cls_sound in Hm.
      destruct Hm as (w & s' & -> & Hw & Hpl & Hk).
      apply IH in Hk. destruct Hk as (u & v & -> & Hu & ->).
      exists (w ++ u), v. rewrite <- app_assoc, length_app. simpl.
      repeat split; [|lia]. exists w, u. auto.
    + apply IH in Hm. exact Hm.
    + apply IH in Hm. exact Hm.
Qed.

Lemma rmatch_bound r s pos ms e ms' :
  rmatch r s pos ms = Some (e, ms') -> pos <= e <= pos + length s.
Proof.
  intros Hm. apply rmatch_sound in Hm.
  destruct Hm as (u & v & -> & _ & ->). rewrite length_app. lia.
Qed.

Lemma rmatch_lit c r s pos ms :
  rmatch (Lit c :: r) (c :: s) pos ms = rmatch r s (S pos) ms.
Proof. simpl. now rewrite N.eqb_refl. Qed.

Lemma rmatch_lit_ne c x r s pos ms :
  x <> c -> rmatch (Lit c :: r) (x :: s) pos ms = None.
Proof. intros Hne. simpl. now destruct (N.eqb_spec x c). Qed.

Lemma rmatch_open g r s pos ms :
  rmatch (GOpen g :: r) s pos ms = rmatch r s pos (MOpen g pos :: ms).
Proof. reflexivity. Qed.

Lemma rmatch_close g r s pos ms :
  rmatch (GClose g :: r) s pos ms = rmatch r s pos (MClose g pos :: ms).
Proof. reflexivity. Qed.

(** A greedy star or plus takes the whole run [w] when the text after it
    cannot extend the run and the rest of the pattern matches there. *)
Lemma rmatch_star_munch k r w s pos ms res :
  forallb (mem k) w = true ->
  match s with [] => true | c :: _ => negb (mem k c) end = true ->
  rmatch r s (pos + length w) ms = Some res ->
  rmatch (Rep k false true :: r) (w ++ s) pos ms = Some res.
Proof.
  intros Hw Hs Hk. simpl. unfold repeat_cls.
  apply star_greedy_munch; auto. now rewrite star_greedy_stop.
Qed.

Lemma rmatch_plus_munch k r w s pos ms res :
  forallb (mem k) w = true -> nonempty w = true ->
  match s with [] => true | c :: _ => negb (mem k c) end = true ->
  rmatch r s (pos + length w) ms = Some res ->
  rmatch (Rep k true true :: r) (w ++ s) pos ms = Some res.
Proof.
  intros Hw Hne Hs Hk. destruct w as [|c w]; [discriminate|].
  simpl in Hw. apply andb_prop in Hw. destruct Hw as [Hc Hw].
  simpl. unfold repeat_cls. rewrite Hc.
  apply star_greedy_munch; auto. rewrite star_greedy_stop; auto.
  simpl in Hk. replace (S pos + length w) with (pos + S (length w)) by lia.
  exact Hk.
Qed.

(** A lazy star over any character stops at the first place where the rest
    of the pattern matches. *)
Lemma rmatch_lazy_skip r z s pos ms :
  (forall z1 z2, z = z1 ++ z2 -> z2 <> [] ->
                 rmatch r (z2 ++ s) (pos + length z1) ms = None) ->
  rmatch (Rep AnyChar false false :: r) (z ++ s) pos ms =
  rmatch (Rep AnyChar false false :: r) s (pos + length z) ms.
Proof.
  intros Hk. simpl. unfold repeat_cls.
  apply (star_lazy_skip (mem AnyChar)
           (fun s' pos' => rmatch r s' pos' ms)); auto.
  now apply forallb_forall.
Qed.

Lemma rmatch_lazy_here r s pos ms res :
  rmatch r s pos ms = Some res ->
  rmatch (Rep AnyChar false false :: r) s pos ms = Some res.
Proof.
  intros Hk. simpl. unfold repeat_cls. destruct s; simpl; now rewrite Hk.
Qed.

End MatchFacts.

(** * Facts about [re.sub] *)

Module SubFacts.
Import RegexFacts MatchFacts.

Section Sub.
Variable r : pattern.
Variable t : template.

Lemma sub_fuel_any : forall f1 f2 s,
  length s < f1 -> length s < f2 -> sub_fuel f1 r t s = sub_fuel f2 r t s.
Proof.
  induction f1 as [|f1 IH]; intros f2 s H1 H2; [lia|].
  destruct f2 as [|f2]; [lia|]. simpl.
  assert (Hstep : match s with [] => [] | c :: s' => c :: sub_fuel f1 r t s' end =
                  match s with [] => [] | c :: s' => c :: sub_fuel f2 r t s' end).
  { destruct s as [|c s']; [reflexivity|]. simpl in H1, H2.
    f_equal. apply IH; lia. }
  destruct (match_at r s) as [[e ms]|] eqn:Hm; [|exact Hstep].
  f_equal. destruct (Nat.eqb_spec e 0) as [|Hne]; [exact Hstep|].
  apply rmatch_bound in Hm.
  apply IH; rewrite length_skipn; lia.
Qed.

Lemma sub_fuel_enough f s : length s < f -> sub_fuel f r t s = sub r t s.
Proof. intros Hf. apply sub_fuel_any; [exact Hf | lia]. Qed.

Lemma sub_nil_quiet : no_match r [] = true -> sub r t [] = [].
Proof.
  unfold no_match, sub. simpl. now destruct (match_at r []).
Qed.

Lemma sub_cons_quiet c s :
  no_match r (c :: s) = true -> sub r t (c :: s) = c :: sub r t s.
Proof.
  unfold no_match. intros Hq. unfold sub at 1.
  cbn [length sub_fuel]. destruct (match_at r (c :: s)); [discriminate|].
  reflexivity.
Qed.

Lemma sub_hit s e ms :
  match_at r s = Some (e, ms) -> 0 < e ->
  sub r t s = expand t ms s ++ sub r t (skipn e s).
Proof.
  intros Hm He. unfold sub at 1. cbn [sub_fuel]. rewrite Hm.
  destruct (Nat.eqb_spec e 0) as [|_]; [lia|].
  f_equal. apply sub_fuel_enough.
  apply rmatch_bound in Hm. rewrite length_skipn. lia.
Qed.

(** Text before the first match is copied. *)
Lemma sub_frame u v :
  quiet r (length u) (u ++ v) = true -> sub r t (u ++ v) = u ++ sub r t v.
Proof.
  induction u as [|c u IH]; intros Hq; [reflexivity|].
  simpl in Hq. apply andb_prop in Hq. destruct Hq as [H0 Hq].
  simpl. rewrite sub_cons_quiet; [|exact H0]. f_equal. auto.
Qed.

Lemma sub_silent s : silent r s = true -> sub r t s = s.
Proof.
  unfold silent. induction s as [|c s IH]; intros Hq.
  - simpl in Hq. apply andb_prop in Hq. now apply sub_nil_quiet.
  - cbn [length quiet] in Hq. apply andb_prop in Hq. destruct Hq as [H0 Hq].
    rewrite sub_cons_quiet; [|exact H0]. f_equal. auto.
Qed.
End Sub.

Lemma slice_front a b : slice 0 (length a) (a ++ b) = a.
Proof.
  unfold slice. rewrite Nat.sub_0_r. cbn [skipn]. apply take_app_length.
Qed.

Lemma slice_mid a b c : slice (length a) (length (a ++ b)) (a ++ b ++ c) = b.
Proof.
  unfold slice. rewrite drop_app_length, length_app.
  apply take_app_length'. lia.
Qed.

Lemma skipn_front (a b : text) : skipn (length a) (a ++ b) = b.
Proof. apply drop_app_length. Qed.

End SubFacts.

(** * The blocks the rules rewrite *)

Module BlockFacts.
Import RegexFacts MatchFacts SubFacts.

Lemma rmatch_lits u r s pos ms :
  rmatch (map Lit u ++ r) (u ++ s) pos ms = rmatch r s (pos + length u) ms.
Proof.
  revert pos. induction u as [|c u IH]; intros pos; simpl.
  - now rewrite Nat.add_0_r.
  - rewrite N.eqb_refl, IH. f_equal. lia.
Qed.

Lemma rmatch_star_none k r s pos ms res :
  match s with [] => true | c :: _ => negb (mem k c) end = true ->
  rmatch r s pos ms = Some res ->
  rmatch (Rep k false true :: r) s pos ms = Some res.
Proof.
  intros Hs Hk. apply (rmatch_star_munch k r [] s); auto.
  simpl. now rewrite Nat.add_0_r.
Qed.

Lemma stop_app (p : char -> bool) w s :
  nonempty w = true ->
  match w with [] => true | c :: _ => negb (p c) end = true ->
  match w ++ s with [] => true | c :: _ => negb (p c) end = true.
Proof. destruct w; [discriminate | auto]. Qed.

Lemma space_not_rbrace c : is_space c = true -> mem (NoneOf [rbrace]) c = true.
Proof.
  intros Hc. simpl. destruct (N.eqb_spec c rbrace) as [->|]; [|reflexivity].
  discriminate Hc.
Qed.

Lemma spaces_not_rbrace w :
  all_space w = true -> forallb (mem (NoneOf [rbrace])) w = true.
Proof.
  unfold all_space. rewrite !forallb_forall. intros Hw c Hc.
  apply space_not_rbrace. auto.
Qed.

Lemma okA_inv l : okA l = true ->
  spaces_ok l = true /\ dat_ok l = true /\ nonempty (msg l) = true /\
  tight (msg l) = true /\ forallb (mem (NoneOf [rbrace])) (msg l) = true.
Proof. unfold okA. rewrite !andb_true_iff. tauto. Qed.

#[local] Arguments rmatch : simpl never.

Ltac lits_step :=
  match goal with
  | |- rmatch (map Lit ?u ++ _) (?u ++ _) _ _ = _ => rewrite rmatch_lits
  end.

Lemma matchA l post : okA l = true -> tight post = true ->
  match_at rexA (blockA l ++ post) =
  Some (length (blockA l),
        [MClose 2 (length (blockA l)); MOpen 2 (length (head "true," l ++ tail l));
         MClose 1 (length (head "true," l)); MOpen 1 0]).
Proof.
  intros Hok Hpost. apply okA_inv in Hok.
  destruct Hok as (Hsp & Hd & Hm1 & Hm2 & Hm3).
  unfold spaces_ok in Hsp. rewrite !andb_true_iff in Hsp.
  unfold dat_ok in Hd. rewrite !andb_true_iff in Hd.
  destruct Hsp as (((((((((((S1 & N1) & S2) & N2) & S3) & S4) & S5) & S6) & S7) & S8) & S9) & S10).
  destruct Hd as ((D1 & D2) & D3).
  unfold match_at, rexA, blockA, block, head, tail, before_msg, closing,
    lits, star, plus.
  rewrite <- !app_assoc. cbn [app].
  rewrite rmatch_open.
  apply rmatch_plus_munch; [exact S1 | exact N1 | reflexivity |]. lits_step.
  apply rmatch_plus_munch; [exact S2 | exact N2 | reflexivity |]. lits_step.
  apply rmatch_star_munch; [exact S3 | reflexivity |]. lits_step.
  apply rmatch_star_munch; [exact S4 | reflexivity |]. lits_step.
  apply rmatch_star_munch; [exact S5 | reflexivity |]. lits_step.
  apply rmatch_star_munch; [exact S6 | now apply stop_app |].
  apply rmatch_plus_munch; [exact D3 | exact D1 | reflexivity |]. lits_step.
  rewrite rmatch_close.
  apply rmatch_star_munch; [exact S7 | reflexivity |]. lits_step.
  apply rmatch_star_munch; [exact S8 | now apply stop_app |].
  rewrite (app_assoc (msg l) (ws_close l)).
  apply rmatch_plus_munch.
  { rewrite forallb_app, Hm3. now rewrite spaces_not_rbrace. }
  { destruct (msg l); [discriminate | reflexivity]. }
  { reflexivity. }
  rewrite rmatch_open.
  apply rmatch_star_none; [reflexivity|]. lits_step.
  apply rmatch_star_munch; [exact S10 | exact Hpost |].
  rewrite rmatch_close. unfold rmatch.
  rewrite !length_app.
  match goal with
  | |- Some (?a, [MClose 2 _; MOpen 2 ?c; MClose 1 ?d; _]) =
       Some (?a', [MClose 2 _; MOpen 2 ?c'; MClose 1 ?d'; _]) =>
      replace a with a' by lia; replace c with c' by lia;
      replace d with d' by lia; reflexivity
  end.
Qed.

Lemma expand_two (a b c d mid : text) :
  expand [TGroup 1; TText mid; TGroup 2]
    [MClose 2 (length (a ++ b ++ c)); MOpen 2 (length (a ++ b));
     MClose 1 (length a); MOpen 1 0]
    ((a ++ b ++ c) ++ d) = a ++ mid ++ c.
Proof.
  assert (H1 : slice 0 (length a) ((a ++ b ++ c) ++ d) = a).
  { rewrite <- app_assoc. apply slice_front. }
  assert (H2 : slice (length (a ++ b)) (length (a ++ b ++ c))
                 ((a ++ b ++ c) ++ d) = c).
  { rewrite (app_assoc a b c), <- (app_assoc (a ++ b) c d). apply slice_mid. }
  unfold expand, group. cbn [open_of close_of Nat.eqb].
  now rewrite H1, H2, app_nil_r.
Qed.

Lemma expandA l post :
  expand tplA
    [MClose 2 (length (blockA l)); MOpen 2 (length (head "true," l ++ tail l));
     MClose 1 (length (head "true," l)); MOpen 1 0]
    (blockA l ++ post) = outA l.
Proof. apply expand_two. Qed.

Lemma block_nonempty flag l : 0 < length (block flag l).
Proof.
  unfold block, head. rewrite <- !app_assoc, !length_app.
  assert (0 < length (str "return")) by (simpl; lia). lia.
Qed.

(** Rule A on a block it rewrites, at the front of a text. *)
Lemma ruleA_block l post : okA l = true -> tight post = true ->
  ruleA (blockA l ++ post) = outA l ++ ruleA post.
Proof.
  intros Hok Hpost. unfold ruleA.
  rewrite (sub_hit _ _ _ _ _ (matchA l post Hok Hpost) (block_nonempty _ l)).
  now rewrite expandA, skipn_front.
Qed.

Lemma lead_spaces p w s :
  all_space w = true -> lead p (w ++ s) = lead p s.
Proof.
  induction w as [|c w IH]; intros Hw; [reflexivity|].
  simpl in Hw. apply andb_prop in Hw. destruct Hw as [Hc Hw].
  simpl. rewrite Hc. auto.
Qed.

Lemma closeB_lead s pos ms res :
  rmatch closeB s pos ms = Some res -> lead_close s = true.
Proof.
  destruct res as [e ms']. intros Hm. apply rmatch_sound in Hm.
  destruct Hm as (u & v & -> & Hu & _). simpl in Hu.
  destruct Hu as (w1 & u1 & -> & Hw1 & _ & w2 & u2 & -> & Hw2 & _ & Hu).
  destruct Hu as (u3 & -> & u4 & -> & _).
  rewrite <- !app_assoc.
  unfold lead_close.
  rewrite (lead_spaces _ w1) by exact Hw1.
  rewrite (lead_spaces _ w2) by exact Hw2. reflexivity.
Qed.

Lemma closeB_refuses s pos ms :
  lead_close s = false -> rmatch closeB s pos ms = None.
Proof.
  intros Hl. destruct (rmatch closeB s pos ms) eqn:Hm; [|reflexivity].
  apply closeB_lead in Hm. congruence.
Qed.

Lemma ends_tight_cons c s : s <> [] -> ends_tight (c :: s) = ends_tight s.
Proof. destruct s; [congruence | reflexivity]. Qed.

Lemma ends_tight_app a b : b <> [] -> ends_tight (a ++ b) = ends_tight b.
Proof.
  intros Hb. induction a as [|c a IH]; [reflexivity|].
  simpl app. rewrite ends_tight_cons; [exact IH|]. now destruct a, b.
Qed.

Lemma occurs_app_r p a b : occurs p (a ++ b) = false -> occurs p b = false.
Proof.
  induction a as [|c a IH]; [auto|]. simpl. intros H.
  apply orb_false_iff in H. destruct H as [_ H]. auto.
Qed.

Lemma str_close : str "};" = [rbrace; 59%N].
Proof. reflexivity. Qed.

(** Inside a message that holds no brace-semicolon and does not end in
    white space, the closing part of Rule B finds nothing to match. *)
Lemma lead_close_inside z w rest :
  z <> [] -> ends_tight z = true -> occurs (str "};") z = false ->
  all_space w = true ->
  lead_close (z ++ w ++ str "};" ++ rest) = false.
Proof.
  unfold lead_close. rewrite str_close. intros Hne Het Hocc Hw.
  induction z as [|c z IH]; [congruence|].
  cbn [app lead]. destruct (is_space c) eqn:Hc.
  - destruct z as [|d z].
    + simpl in Het. rewrite Hc in Het. discriminate.
    + apply IH; [discriminate | exact Het |].
      cbn [occurs] in Hocc. apply orb_false_iff in Hocc. tauto.
  - cbn [occurs] in Hocc. apply orb_false_iff in Hocc. destruct Hocc as [Hst _].
    cbn [starts_with] in *.
    destruct (N.eqb_spec rbrace c) as [<-|]; [|reflexivity]. cbn [andb] in *.
    destruct z as [|d z].
    + cbn [app]. destruct w as [|x w]; [reflexivity|].
      cbn [all_space forallb] in Hw. apply andb_prop in Hw. destruct Hw as [Hx _].
      cbn [app starts_with].
      destruct (N.eqb_spec 59 x) as [<-|]; [discriminate Hx | reflexivity].
    + cbn [app starts_with] in *. exact Hst.
Qed.

Lemma starts_with_split p s :
  starts_with p s = true -> s = p ++ skipn (length p) s.
Proof.
  revert s. induction p as [|a p IH]; intros s Hs; [reflexivity|].
  destruct s as [|b s]; [discriminate|]. simpl in Hs.
  apply andb_prop in Hs. destruct Hs as [Hab Hs].
  apply N.eqb_eq in Hab. subst b. simpl. f_equal. auto.
Qed.

Lemma okB_inv l : okB l = true ->
  spaces_ok l = true /\ dat_ok l = true /\
  ends_tight (msg l) = true /\
  exists z, msg l = str "error.response" ++ z /\ occurs (str "};") z = false.
Proof.
  unfold okB. rewrite !andb_true_iff, negb_true_iff.
  intros ((((Hs & Hd) & Hst) & Het) & Hocc). repeat split; auto.
  exists (skipn 14 (msg l)). split; [|exact Hocc].
  exact (starts_with_split _ _ Hst).
Qed.

Lemma matchB l post : okB l = true -> tight post = true ->
  match_at rexB (blockB l ++ post) =
  Some (length (blockB l),
        [MClose 3 (length (blockB l));
         MOpen 3 (length (head "false," l ++ tail l));
         MClose 2 (length (head "false," l ++ before_msg l ++ msg l));
         MOpen 2 (length (head "false," l ++ before_msg l));
         MClose 1 (length (head "false," l)); MOpen 1 0]).
Proof.
  intros Hok Hpost. apply okB_inv in Hok.
  destruct Hok as (Hsp & Hd & Het & z & Hmsg & Hocc).
  unfold spaces_ok in Hsp. rewrite !andb_true_iff in Hsp.
  unfold dat_ok in Hd. rewrite !andb_true_iff in Hd.
  destruct Hsp as (((((((((((S1 & N1) & S2) & N2) & S3) & S4) & S5) & S6) & S7) & S8) & S9) & S10).
  destruct Hd as ((D1 & D2) & D3).
  unfold match_at, rexB, blockB, block, head, tail, before_msg, closing,
    lits, star, plus, lazy_star.
  rewrite Hmsg in *.
  rewrite <- !app_assoc. cbn [app].
  rewrite rmatch_open.
  apply rmatch_plus_munch; [exact S1 | exact N1 | reflexivity |]. lits_step.
  apply rmatch_plus_munch; [exact S2 | exact N2 | reflexivity |]. lits_step.
  apply rmatch_star_munch; [exact S3 | reflexivity |]. lits_step.
  apply rmatch_star_munch; [exact S4 | reflexivity |]. lits_step.
  apply rmatch_star_munch; [exact S5 | reflexivity |]. lits_step.
  apply rmatch_star_munch; [exact S6 | now apply stop_app |].
  apply rmatch_plus_munch; [exact D3 | exact D1 | reflexivity |]. lits_step.
  rewrite rmatch_close.
  apply rmatch_star_munch; [exact S7 | reflexivity |]. lits_step.
  apply rmatch_star_munch; [exact S8 | reflexivity |].
  rewrite rmatch_open. lits_step.
  rewrite rmatch_lazy_skip.
  2:{ intros z1 z2 -> Hne. apply closeB_refuses.
      apply lead_close_inside; auto.
      - rewrite app_assoc in Het. now rewrite ends_tight_app in Het.
      - now apply occurs_app_r in Hocc. }
  apply rmatch_lazy_here.
  rewrite rmatch_close.
  apply rmatch_star_munch; [exact S9 | reflexivity |].
  rewrite rmatch_open.
  apply rmatch_star_none; [reflexivity|]. lits_step.
  apply rmatch_star_munch; [exact S10 | exact Hpost |].
  rewrite rmatch_close. unfold rmatch.
  rewrite !length_app.
  match goal with
  | |- Some (?a, [MClose 3 _; MOpen 3 ?c; MClose 2 ?d; MOpen 2 ?e; MClose 1 ?f; _]) =
       Some (?a', [MClose 3 _; MOpen 3 ?c'; MClose 2 ?d'; MOpen 2 ?e'; MClose 1 ?f'; _]) =>
      replace a with a' by lia; replace c with c' by lia;
      replace d with d' by lia; replace e with e' by lia;
      replace f with f' by lia; reflexivity
  end.
Qed.

Lemma expand_three (a b m w c d x y : text) :
  expand [TGroup 1; TText x; TGroup 2; TText y; TGroup 3]
    [MClose 3 (length (a ++ (b ++ m ++ w) ++ c));
     MOpen 3 (length (a ++ b ++ m ++ w));
     MClose 2 (length (a ++ b ++ m)); MOpen 2 (length (a ++ b));
     MClose 1 (length a); MOpen 1 0]
    ((a ++ (b ++ m ++ w) ++ c) ++ d) = a ++ x ++ m ++ y ++ c.
Proof.
  assert (H1 : slice 0 (length a) ((a ++ (b ++ m ++ w) ++ c) ++ d) = a).
  { rewrite <- app_assoc. apply slice_front. }
  assert (H2 : slice (length (a ++ b)) (length (a ++ b ++ m))
                 ((a ++ (b ++ m ++ w) ++ c) ++ d) = m).
  { replace ((a ++ (b ++ m ++ w) ++ c) ++ d)
      with ((a ++ b) ++ m ++ (w ++ c ++ d)) by (now rewrite <- !app_assoc).
    rewrite (app_assoc a b m). apply slice_mid. }
  assert (H3 : slice (length (a ++ b ++ m ++ w))
                 (length (a ++ (b ++ m ++ w) ++ c))
                 ((a ++ (b ++ m ++ w) ++ c) ++ d) = c).
  { rewrite (app_assoc a (b ++ m ++ w) c).
    rewrite <- (app_assoc (a ++ b ++ m ++ w) c d). apply slice_mid. }
  unfold expand, group. cbn [open_of close_of Nat.eqb].
  now rewrite H1, H2, H3, app_nil_r.
Qed.

(** Rule B on a block it rewrites, at the front of a text. *)
Lemma ruleB_block l post : okB l = true -> tight post = true ->
  ruleB (blockB l ++ post) = outB l ++ ruleB post.
Proof.
  intros Hok Hpost. unfold ruleB.
  rewrite (sub_hit _ _ _ _ _ (matchB l post Hok Hpost) (block_nonempty _ l)).
  rewrite skipn_front. f_equal.
  unfold tplB, blockB, block, tail, outB, outB_with, code_text.
  rewrite expand_three. reflexivity.
Qed.

End BlockFacts.

(** * The shape of every match *)

Module ShapeFacts.
Import RegexFacts MatchFacts SubFacts BlockFacts.

Lemma lang_lits a r u :
  lang (map Lit a ++ r) u -> exists u', u = a ++ u' /\ lang r u'.
Proof.
  revert u. induction a as [|c a IH]; intros u Hu; simpl in *.
  - eauto.
  - destruct Hu as (u1 & -> & Hu). apply IH in Hu.
    destruct Hu as (u' & -> & Hu). eauto.
Qed.

Lemma nonempty_ne (w : text) : w <> [] -> nonempty w = true.
Proof. destruct w; [congruence | reflexivity]. Qed.

Ltac lang_step H :=
  first
    [ apply lang_lits in H;
      let u := fresh "u" in destruct H as (u & -> & H)
    | let w := fresh "w" in let u := fresh "u" in
      let Hw := fresh "Hw" in let Hn := fresh "Hn" in
      cbn [lang] in H; destruct H as (w & u & -> & Hw & Hn & H) ].

Ltac split_ands :=
  repeat match goal with
         | |- _ /\ _ => split
         | |- (_ && _) = true => apply andb_true_intro; split
         end.

(** Every word of Rule A's pattern is a block. *)
Lemma lang_rexA u : lang rexA u ->
  exists l, u = blockA l /\ spaces_ok l = true /\
            nonempty (dat l) = true /\ forallb (mem K1) (dat l) = true /\
            nonempty (msg l) = true /\ forallb (mem K2) (msg l) = true.
Proof.
  unfold rexA, lits, star, plus. cbn [app]. intros H.
  cbn [lang] in H.
  do 20 lang_step H. cbn [lang] in H. subst.
  exists (Layout w w0 w1 w2 w3 w4 w5 w6 w7 w8 w9 w10).
  unfold blockA, block, head, tail, before_msg, closing, spaces_ok, all_space.
  cbn [ws_ret ws_brace ws_succ ws_flag ws_data ws_dat dat ws_msg ws_val msg
       ws_close ws_end].
  rewrite <- !app_assoc, app_nil_r.
  split_ands; auto using nonempty_ne.
Qed.

(** Every word of Rule B's pattern is a block whose message begins with
    error.response. *)
Lemma lang_rexB u : lang rexB u ->
  exists l, u = blockB l /\ spaces_ok l = true /\
            nonempty (dat l) = true /\ forallb (mem K1) (dat l) = true /\
            starts_with (str "error.response") (msg l) = true.
Proof.
  unfold rexB, lits, star, plus, lazy_star. cbn [app]. intros H.
  cbn [lang] in H.
  do 22 lang_step H. cbn [lang] in H. subst.
  exists (Layout w w0 w1 w2 w3 w4 w5 w6 w7 (str "error.response" ++ w8)
            (w9 ++ w10) w11).
  unfold blockB, block, head, tail, before_msg, closing, spaces_ok, all_space.
  cbn [ws_ret ws_brace ws_succ ws_flag ws_data ws_dat dat ws_msg ws_val msg
       ws_close ws_end].
  rewrite <- !app_assoc, app_nil_r.
  split_ands; auto using nonempty_ne.
  rewrite forallb_app. apply andb_true_intro. split; assumption.
Qed.

Lemma rexA_shape s e ms : match_at rexA s = Some (e, ms) ->
  exists l v, s = blockA l ++ v /\ e = length (blockA l) /\
              spaces_ok l = true /\
              nonempty (dat l) = true /\ forallb (mem K1) (dat l) = true /\
              nonempty (msg l) = true /\ forallb (mem K2) (msg l) = true.
Proof.
  intros Hm. apply rmatch_sound in Hm. destruct Hm as (u & v & -> & Hu & ->).
  apply lang_rexA in Hu. destruct Hu as (l & -> & Hl). exists l, v. auto.
Qed.

Lemma rexB_shape s e ms : match_at rexB s = Some (e, ms) ->
  exists l v, s = blockB l ++ v /\ e = length (blockB l) /\
              spaces_ok l = true /\
              nonempty (dat l) = true /\ forallb (mem K1) (dat l) = true /\
              starts_with (str "error.response") (msg l) = true.
Proof.
  intros Hm. apply rmatch_sound in Hm. destruct Hm as (u & v & -> & Hu & ->).
  apply lang_rexB in Hu. destruct Hu as (l & -> & Hl). exists l, v. auto.
Qed.

(** Two ways of cutting a text after a run of a class and before a
    character outside it are the same. *)
Lemma run_align (p : char -> bool) a a' c c' (s s' : text) :
  forallb p a = true -> forallb p a' = true -> p c = false -> p c' = false ->
  a ++ c :: s = a' ++ c' :: s' -> a = a' /\ c = c' /\ s = s'.
Proof.
  revert a'. induction a as [|x a IH]; intros [|y a'] Ha Ha' Hc Hc' E;
    simpl in *.
  - injection E as -> ->. auto.
  - injection E as -> _. apply andb_prop in Ha'. destruct Ha'. congruence.
  - injection E as -> _. apply andb_prop in Ha. destruct Ha. congruence.
  - injection E as -> E. apply andb_prop in Ha, Ha'.
    destruct Ha as [_ Ha], Ha' as [_ Ha'].
    destruct (IH a' Ha Ha' Hc Hc' E) as (-> & -> & ->). auto.
Qed.

Lemma space_align w w' (a b : text) :
  all_space w = true -> all_space w' = true ->
  nonempty a = true -> tight a = true -> nonempty b = true -> tight b = true ->
  w ++ a = w' ++ b -> w = w' /\ a = b.
Proof.
  intros Hw Hw' Ha1 Ha2 Hb1 Hb2 E.
  destruct a as [|x a]; [discriminate|]. destruct b as [|y b]; [discriminate|].
  simpl in Ha2, Hb2. apply negb_true_iff in Ha2, Hb2.
  destruct (run_align is_space w w' x y a b Hw Hw' Ha2 Hb2 E) as (-> & -> & ->).
  auto.
Qed.

Lemma spaces_ok_inv l : spaces_ok l = true ->
  all_space (ws_ret l) = true /\ all_space (ws_brace l) = true /\
  all_space (ws_succ l) = true /\ all_space (ws_flag l) = true /\
  all_space (ws_data l) = true /\ all_space (ws_dat l) = true /\
  all_space (ws_msg l) = true /\ all_space (ws_val l) = true /\
  all_space (ws_close l) = true /\ all_space (ws_end l) = true.
Proof. unfold spaces_ok. rewrite !andb_true_iff. tauto. Qed.

Lemma space_in_K1 c : is_space c = true -> mem K1 c = true.
Proof.
  intros Hc. unfold K1, mem, existsb.
  destruct (N.eqb_spec c comma) as [->|]; [discriminate Hc|].
  destruct (N.eqb_spec c rbrace) as [->|]; [discriminate Hc|]. reflexivity.
Qed.

Lemma spaces_in_K1 w : all_space w = true -> forallb (mem K1) w = true.
Proof.
  unfold all_space. rewrite !forallb_forall. intros Hw c Hc.
  apply space_in_K1. auto.
Qed.

(** Align one white-space run followed by the same literal. *)
Ltac align_run H Hw Hw' :=
  match type of H with
  | ?w ++ ?a = ?w' ++ ?b =>
      let E := fresh "E" in
      destruct (space_align w w' a b Hw Hw' eq_refl eq_refl eq_refl eq_refl H)
        as [_ E];
      clear H; rename E into H
  end.

Ltac drop_lit H :=
  first [ apply app_inv_head in H | discriminate H ].

(** Two heads at the front of one text: the flags agree and so does what
    follows the comma after the data. *)
Lemma head_align f f' l l' X Y :
  (f = "true," \/ f = "false,")%string -> (f' = "true," \/ f' = "false,")%string ->
  spaces_ok l = true -> spaces_ok l' = true ->
  forallb (mem K1) (dat l) = true -> forallb (mem K1) (dat l') = true ->
  head f l ++ X = head f' l' ++ Y -> f = f' /\ X = Y.
Proof.
  intros Hf Hf' Hs Hs' Hd Hd' E.
  apply spaces_ok_inv in Hs, Hs'.
  destruct Hs as (S1 & S2 & S3 & S4 & S5 & S6 & _).
  destruct Hs' as (S1' & S2' & S3' & S4' & S5' & S6' & _).
  unfold head in E. rewrite <- !app_assoc in E.
  align_run E S1 S1'. drop_lit E.
  align_run E S2 S2'. drop_lit E.
  align_run E S3 S3'. drop_lit E.
  assert (Hflag : f = f' /\ ws_data l ++ str "data:" ++ ws_dat l ++ dat l ++ str "," ++ X
                           = ws_data l' ++ str "data:" ++ ws_dat l' ++ dat l' ++ str "," ++ Y).
  { destruct Hf as [-> | ->], Hf' as [-> | ->];
      align_run E S4 S4'; drop_lit E; auto. }
  destruct Hflag as [-> E']. split; [reflexivity|]. clear E.
  align_run E' S5 S5'. drop_lit E'.
  rewrite (app_assoc (ws_dat l)), (app_assoc (ws_dat l')) in E'.
  change (str "," ++ X) with (comma :: X) in E'.
  change (str "," ++ Y) with (comma :: Y) in E'.
  apply run_align with (p := mem K1) in E'; try reflexivity.
  - tauto.
  - rewrite forallb_app, Hd. now rewrite spaces_in_K1.
  - rewrite forallb_app, Hd'. now rewrite spaces_in_K1.
Qed.

Lemma no_match_None r s : match_at r s = None -> no_match r s = true.
Proof. unfold no_match. now intros ->. Qed.

Lemma lead_message l X :
  spaces_ok l = true -> lead (str "message:") (tail l ++ X) = true.
Proof.
  intros Hs. apply spaces_ok_inv in Hs.
  unfold tail, before_msg. rewrite <- !app_assoc.
  rewrite lead_spaces by tauto. reflexivity.
Qed.

(** Rule A and Rule B need their own flag after success: ... *)
Lemma rexA_needs_true l X :
  spaces_ok l = true -> forallb (mem K1) (dat l) = true ->
  match_at rexA (head "false," l ++ X) = None.
Proof.
  intros Hs Hd. destruct (match_at rexA _) as [[e ms]|] eqn:Hm; [|reflexivity].
  apply rexA_shape in Hm. destruct Hm as (l' & v & E & _ & Hs' & _ & Hd' & _).
  unfold blockA, block in E. rewrite <- !app_assoc in E.
  apply head_align in E; auto. destruct E as [E _]. discriminate E.
Qed.

Lemma rexB_needs_false l X :
  spaces_ok l = true -> forallb (mem K1) (dat l) = true ->
  match_at rexB (head "true," l ++ X) = None.
Proof.
  intros Hs Hd. destruct (match_at rexB _) as [[e ms]|] eqn:Hm; [|reflexivity].
  apply rexB_shape in Hm. destruct Hm as (l' & v & E & _ & Hs' & _ & Hd' & _).
  unfold blockB, block in E. rewrite <- !app_assoc in E.
  apply head_align in E; auto. destruct E as [E _]. discriminate E.
Qed.

(** ... and message: right after the comma that ends the data. *)
Lemma rexA_needs_message l X :
  spaces_ok l = true -> forallb (mem K1) (dat l) = true ->
  lead (str "message:") X = false ->
  match_at rexA (head "true," l ++ X) = None.
Proof.
  intros Hs Hd HX. destruct (match_at rexA _) as [[e ms]|] eqn:Hm; [|reflexivity].
  apply rexA_shape in Hm. destruct Hm as (l' & v & E & _ & Hs' & _ & Hd' & _).
  unfold blockA, block in E. rewrite <- !app_assoc in E.
  apply head_align in E; auto. destruct E as [_ ->].
  rewrite lead_message in HX; [discriminate | exact Hs'].
Qed.

Lemma rexB_needs_message l X :
  spaces_ok l = true -> forallb (mem K1) (dat l) = true ->
  lead (str "message:") X = false ->
  match_at rexB (head "false," l ++ X) = None.
Proof.
  intros Hs Hd HX. destruct (match_at rexB _) as [[e ms]|] eqn:Hm; [|reflexivity].
  apply rexB_shape in Hm. destruct Hm as (l' & v & E & _ & Hs' & _ & Hd' & _).
  unfold blockB, block in E. rewrite <- !app_assoc in E.
  apply head_align in E; auto. destruct E as [_ ->].
  rewrite lead_message in HX; [discriminate | exact Hs'].
Qed.

Lemma spaces_in_K2 w : all_space w = true -> forallb (mem K2) w = true.
Proof. apply spaces_not_rbrace. Qed.

(** Rule A needs a semicolon right after the first closing brace. *)
Lemma rexA_needs_semicolon l X :
  spaces_ok l = true -> forallb (mem K1) (dat l) = true ->
  forallb (mem K2) (msg l) = true ->
  starts_with (str ";") X = false ->
  match_at rexA (head "true," l ++ tail l ++ rbrace :: X) = None.
Proof.
  intros Hs Hd Hmsg HX.
  destruct (match_at rexA _) as [[e ms]|] eqn:Hm; [|reflexivity].
  apply rexA_shape in Hm.
  destruct Hm as (l' & v & E & _ & Hs' & _ & Hd' & _ & Hmsg').
  unfold blockA, block in E. rewrite <- !app_assoc in E.
  apply head_align in E; auto. destruct E as [_ E].
  apply spaces_ok_inv in Hs, Hs'.
  destruct Hs as (_ & _ & _ & _ & _ & _ & S7 & S8 & S9 & _).
  destruct Hs' as (_ & _ & _ & _ & _ & _ & S7' & S8' & S9' & _).
  unfold tail, before_msg, closing in E. rewrite <- !app_assoc in E.
  align_run E S7 S7'. drop_lit E.
  rewrite (app_assoc (ws_val l)), (app_assoc (ws_val l')) in E.
  rewrite (app_assoc (ws_val l ++ msg l)) in E.
  rewrite (app_assoc (ws_val l' ++ msg l')) in E.
  change (str "};" ++ ws_end l' ++ v) with (rbrace :: str ";" ++ ws_end l' ++ v) in E.
  apply run_align with (p := mem K2) in E; try reflexivity.
  - destruct E as (_ & _ & ->). discriminate HX.
  - rewrite !forallb_app, Hmsg. now rewrite !spaces_in_K2.
  - rewrite !forallb_app, Hmsg'. now rewrite !spaces_in_K2.
Qed.

(** The two patterns never match at the same place. *)
Lemma rexA_rexB_disjoint s e ms :
  match_at rexA s = Some (e, ms) -> match_at rexB s = None.
Proof.
  intros Hm. apply rexA_shape in Hm.
  destruct Hm as (l & v & -> & _ & Hs & _ & Hd & _).
  unfold blockA, block. rewrite <- !app_assoc. now apply rexB_needs_false.
Qed.

(** A text that does not begin with white space is no match. *)
Lemma tight_no_match_A s : tight s = true -> match_at rexA s = None.
Proof.
  destruct s as [|c s]; [reflexivity|]. simpl. intros Hc.
  apply negb_true_iff in Hc. unfold match_at, rexA.
  cbn [app]. rewrite rmatch_open. unfold rmatch, plus, repeat_cls.
  cbn [mem]. now rewrite Hc.
Qed.

Lemma tight_no_match_B s : tight s = true -> match_at rexB s = None.
Proof.
  destruct s as [|c s]; [reflexivity|]. simpl. intros Hc.
  apply negb_true_iff in Hc. unfold match_at, rexB.
  cbn [app]. rewrite rmatch_open. unfold rmatch, plus, repeat_cls.
  cbn [mem]. now rewrite Hc.
Qed.

Lemma tight_sub r t s :
  (forall s', tight s' = true -> match_at r s' = None) ->
  tight s = true -> tight (sub r t s) = true.
Proof.
  intros Hr Hs. destruct s as [|c s].
  - rewrite sub_nil_quiet; [reflexivity|]. apply no_match_None. now apply Hr.
  - rewrite sub_cons_quiet; [exact Hs|]. apply no_match_None. now apply Hr.
Qed.

(** A lazy repetition stops at the first place where what follows it
    matches: before that place it was refused. *)
Lemma star_lazy_first (p : char -> bool) (k : text -> nat -> result) s pos res :
  star_lazy p k s pos = Some res ->
  exists w s', s = w ++ s' /\ forallb p w = true /\
               k s' (pos + length w) = Some res /\
               forall w1 w2, w = w1 ++ w2 -> w2 <> [] ->
                             k (w2 ++ s') (pos + length w1) = None.
Proof.
  revert pos. induction s as [|c s IH]; intros pos Hm; simpl in Hm.
  - destruct (k [] pos) eqn:Hk; [|discriminate]. injection Hm as <-.
    exists [], []. simpl. rewrite Nat.add_0_r. repeat split; auto.
    intros w1 w2 E. apply eq_sym, app_eq_nil in E. tauto.
  - destruct (k (c :: s) pos) eqn:Hk.
    + injection Hm as <-. exists [], (c :: s). simpl. rewrite Nat.add_0_r.
      repeat split; auto.
      intros w1 w2 E. apply eq_sym, app_eq_nil in E. tauto.
    + destruct (p c) eqn:Hc; [|discriminate].
      apply IH in Hm. destruct Hm as (w & s' & -> & Hw & Hk' & Hmin).
      exists (c :: w), s'. simpl. rewrite Hc, Hw.
      replace (pos + S (length w)) with (S pos + length w) by lia.
      repeat split; auto.
      intros [|x w1] w2 E Hne; simpl in E.
      * subst w2. simpl. now rewrite Nat.add_0_r.
      * injection E as <- ->. simpl.
        replace (pos + S (length w1)) with (S pos + length w1) by lia. auto.
Qed.

(** A success of a pattern in two parts: a word of the first part, then a
    success of the second. *)
Lemma rmatch_split r1 r2 : forall s pos ms res,
  rmatch (r1 ++ r2) s pos ms = Some res ->
  exists u s' ms1, s = u ++ s' /\ lang r1 u /\
                   rmatch r2 s' (pos + length u) ms1 = Some res.
Proof.
  induction r1 as [|a r1 IH]; intros s pos ms res Hm.
  - exists [], s, ms. simpl. rewrite Nat.add_0_r. auto.
  - destruct a as [c|k pl gr|g|g]; simpl in Hm; unfold rmatch in Hm;
      fold rmatch in Hm.
    + destruct s as [|x s]; [discriminate|].
      destruct (N.eqb_spec x c) as [->|]; [|discriminate].
      apply IH in Hm. destruct Hm as (u & s' & ms1 & -> & Hu & Hm).
      exists (c :: u), s', ms1. simpl.
      replace (pos + S (length u)) with (S pos + length u) by lia. eauto.
    + apply repeat_cls_sound in Hm.
      destruct Hm as (w & s1 & -> & Hw & Hpl & Hk).
      apply IH in Hk. destruct Hk as (u & s' & ms1 & -> & Hu & Hm).
      exists (w ++ u), s', ms1. rewrite <- app_assoc, length_app.
      rewrite Nat.add_assoc. repeat split; auto.
      simpl. exists w, u. auto.
    + apply IH in Hm. exact Hm.
    + apply IH in Hm. exact Hm.
Qed.

Lemma lead_split p s :
  lead p s = true -> exists w rest, s = w ++ rest /\ all_space w = true /\
                                    starts_with p rest = true.
Proof.
  induction s as [|c s IH]; [discriminate|]. simpl.
  destruct (is_space c) eqn:Hc.
  - intros Hl. destruct (IH Hl) as (w & rest & -> & Hw & Hr).
    exists (c :: w), rest. simpl. unfold all_space in *. simpl.
    rewrite Hc, Hw. auto.
  - intros Hl. exists [], (c :: s). auto.
Qed.

Lemma span_spaces s :
  exists w rest, s = w ++ rest /\ all_space w = true /\ tight rest = true.
Proof.
  induction s as [|c s IH].
  - exists [], []. auto.
  - destruct (is_space c) eqn:Hc.
    + destruct IH as (w & rest & -> & Hw & Hr).
      exists (c :: w), rest. unfold all_space in *. simpl. rewrite Hc, Hw. auto.
    + exists [], (c :: s). simpl. rewrite Hc. auto.
Qed.

(** The closing part of Rule B accepts wherever white space, a closing
    brace and a semicolon come next. *)
Lemma closeB_accepts s pos ms :
  lead_close s = true -> exists res, rmatch closeB s pos ms = Some res.
Proof.
  intros Hl. apply lead_split in Hl. destruct Hl as (w & rest & -> & Hw & Hr).
  apply starts_with_split in Hr. rewrite Hr.
  destruct (span_spaces (skipn (length (str "};")) rest))
    as (w' & rest' & -> & Hw' & Hr').
  eexists. unfold closeB, lits, star. cbn [app].
  rewrite rmatch_close.
  apply rmatch_star_munch; [exact Hw | reflexivity |].
  rewrite rmatch_open.
  apply rmatch_star_none; [reflexivity|]. lits_step.
  apply rmatch_star_munch; [exact Hw' | exact Hr' |].
  rewrite rmatch_close. reflexivity.
Qed.

Lemma rexB_parts : rexB = openB ++ lazy_star AnyChar :: closeB.
Proof. reflexivity. Qed.

(** Whatever Rule B matches is a block whose message begins with
    error.response and runs to the first place where white space, a closing
    brace and a semicolon follow. *)
Lemma rexB_first_close s e ms : match_at rexB s = Some (e, ms) ->
  exists l v, s = blockB l ++ v /\ e = length (blockB l) /\
    spaces_ok l = true /\
    nonempty (dat l) = true /\ forallb (mem K1) (dat l) = true /\
    starts_with (str "error.response") (msg l) = true /\
    forall z1 z2, skipn 14 (msg l) = z1 ++ z2 -> z2 <> [] ->
                  lead_close (z2 ++ ws_close l ++ closing l ++ v) = false.
Proof.
  unfold match_at. rewrite rexB_parts. intros Hm.
  apply rmatch_split in Hm. destruct Hm as (u & s1 & ms1 & -> & Hu & Hm).
  unfold rmatch in Hm; fold rmatch in Hm. unfold lazy_star, repeat_cls in Hm.
  apply star_lazy_first in Hm.
  destruct Hm as (z & s2 & -> & _ & Hk & Hmin).
  apply rmatch_sound in Hk. destruct Hk as (u2 & v & -> & Hu2 & ->).
  unfold openB, lits, star, plus in Hu. cbn [app] in Hu. cbn [lang] in Hu.
  do 16 lang_step Hu. cbn [lang] in Hu.
  rewrite <- (app_nil_r (map Lit (str "error.response"))) in Hu.
  lang_step Hu. cbn [lang] in Hu. subst.
  unfold closeB, lits, star in Hu2. cbn [app] in Hu2. cbn [lang] in Hu2.
  do 4 lang_step Hu2. cbn [lang] in Hu2. subst.
  exists (Layout w w0 w1 w2 w3 w4 w5 w6 w7 (str "error.response" ++ z)
            (w8 ++ w9) w10), v.
  unfold blockB, block, head, tail, before_msg, closing, spaces_ok, all_space.
  cbn [ws_ret ws_brace ws_succ ws_flag ws_data ws_dat dat ws_msg ws_val msg
       ws_close ws_end].
  split; [now rewrite <- !app_assoc, ?app_nil_r|].
  split; [rewrite !length_app; cbn [length]; lia|].
  split.
  { split_ands; auto using nonempty_ne.
    rewrite forallb_app. apply andb_true_intro. split; assumption. }
  split; [auto using nonempty_ne|]. split; [assumption|].
  split; [reflexivity|].
  intros z1 z2 E Hne. change (skipn 14 (str "error.response" ++ z)) with z in E.
  subst z. specialize (Hmin z1 z2 eq_refl Hne).
  destruct (lead_close (z2 ++ (w8 ++ w9) ++ (str "};" ++ w10) ++ v)) eqn:Hl;
    [|reflexivity].
  apply (closeB_accepts _ (0 + length (w ++ str "return" ++ w0 ++ str "{" ++ w1 ++
            str "success:" ++ w2 ++ str "false," ++ w3 ++ str "data:" ++ w4 ++
            w5 ++ str "," ++ w6 ++ str "message:" ++ w7 ++
            str "error.response" ++ []) + length z1) ms1) in Hl.
  destruct Hl as [res Hres].
  rewrite <- !app_assoc in Hres. rewrite <- !app_assoc in Hmin.
  rewrite !app_nil_r in *. change ([] ++ v) with v in Hmin. congruence.
Qed.

Section Segments.
Variable r : pattern.
Variable t : template.

Lemma sub_fuel_segs : forall f s,
  exists segs, s = concat (map seg_in segs) /\
               sub_fuel f r t s = concat (map seg_out segs) /\
               Forall (seg_ok r t) segs.
Proof.
  induction f as [|f IH]; intros s.
  - exists [Keep s]. simpl. rewrite app_nil_r. repeat split.
    constructor; [exact I | constructor].
  - assert (Hstep : exists segs, s = concat (map seg_in segs) /\
              match s with [] => [] | c :: s' => c :: sub_fuel f r t s' end =
              concat (map seg_out segs) /\ Forall (seg_ok r t) segs).
    { destruct s as [|c s'].
      - exists []. repeat split. constructor.
      - destruct (IH s') as (segs & E1 & E2 & Hok).
        exists (Keep [c] :: segs). simpl. rewrite <- E1, <- E2.
        repeat split. constructor; [exact I | exact Hok]. }
    simpl. destruct (match_at r s) as [[e ms]|] eqn:Hm; [|exact Hstep].
    destruct (Nat.eqb_spec e 0) as [->|Hne].
    + destruct Hstep as (segs & E1 & E2 & Hok).
      exists (Hit [] (expand t ms s) :: segs). simpl. rewrite <- E1, <- E2.
      repeat split. constructor; [|exact Hok].
      exists s, ms. simpl. auto.
    + destruct (IH (skipn e s)) as (segs & E1 & E2 & Hok).
      exists (Hit (firstn e s) (expand t ms s) :: segs). simpl.
      rewrite <- E1, <- E2, firstn_skipn. repeat split.
      constructor; [|exact Hok].
      exists (skipn e s), ms. rewrite firstn_skipn.
      apply rmatch_bound in Hm as Hb.
      rewrite length_firstn, Nat.min_l by lia. auto.
Qed.

(** The output is the input with matches replaced and the rest copied. *)
Lemma sub_segs s :
  exists segs, s = concat (map seg_in segs) /\
               sub r t s = concat (map seg_out segs) /\
               Forall (seg_ok r t) segs.
Proof. apply sub_fuel_segs. Qed.
End Segments.

(** Rule B needs error.response right after message: *)
Lemma rexB_needs_error_response l X :
  spaces_ok l = true -> forallb (mem K1) (dat l) = true ->
  lead (str "error.response") X = false ->
  match_at rexB (head "false," l ++ ws_msg l ++ str "message:" ++ X) = None.
Proof.
  intros Hs Hd HX. destruct (match_at rexB _) as [[e ms]|] eqn:Hm; [|reflexivity].
  apply rexB_shape in Hm.
  destruct (Hm) as (l' & v & E & _ & Hs' & _ & Hd' & Hst).
  unfold blockB, block in E. rewrite <- !app_assoc in E.
  apply head_align in E; auto. destruct E as [_ E].
  apply spaces_ok_inv in Hs, Hs'.
  destruct Hs as (_ & _ & _ & _ & _ & _ & S7 & _).
  destruct Hs' as (_ & _ & _ & _ & _ & _ & S7' & S8' & _).
  unfold tail, before_msg in E. rewrite <- !app_assoc in E.
  align_run E S7 S7'. drop_lit E. subst X.
  rewrite lead_spaces in HX by exact S8'.
  rewrite (starts_with_split _ _ Hst) in HX. rewrite <- app_assoc in HX.
  discriminate HX.
Qed.

Lemma tight_app (a b : text) : nonempty a = true -> tight a = true -> tight (a ++ b) = true.
Proof. destruct a; [discriminate | auto]. Qed.

Lemma ruleA_skip pre rest :
  quiet rexA (length pre) (pre ++ rest) = true ->
  ruleA (pre ++ rest) = pre ++ ruleA rest.
Proof. intros Hq. unfold ruleA at 1. now rewrite sub_frame. Qed.

Lemma ruleB_skip pre rest :
  quiet rexB (length pre) (pre ++ rest) = true ->
  ruleB (pre ++ rest) = pre ++ ruleB rest.
Proof. intros Hq. unfold ruleB at 1. now rewrite sub_frame. Qed.

End ShapeFacts.

(** * Facts about the script *)

Module ScriptFacts.

Section Runs.
Context `{Codec}.

Lemma run_missing w :
  fs w !! target = None ->
  run w = (opened_r w, inl FileNotFoundError).
Proof.
  intros Hf. unfold run, main, bind, read_text. now rewrite Hf.
Qed.

Lemma run_unreadable w f :
  fs w !! target = Some f -> readable f = false ->
  run w = (opened_r w, inl PermissionError).
Proof.
  intros Hf Hr. unfold run, main, bind, read_text. now rewrite Hf, Hr.
Qed.

Lemma run_undecodable w f :
  fs w !! target = Some f -> readable f = true -> decode (bytes f) = None ->
  run w = (log (EvRead target) (opened_r w), inl UnicodeDecodeError).
Proof.
  intros Hf Hr Hd. unfold run, main, bind, read_text.
  now rewrite Hf, Hr, Hd.
Qed.

Lemma run_readonly w f t :
  fs w !! target = Some f -> readable f = true ->
  decode (bytes f) = Some t -> writable f = false ->
  run w = (log (EvOpen target ModeW utf8) (log (EvRead target) (opened_r w)),
           inl PermissionError).
Proof.
  intros Hf Hr Hd Hw. unfold run, main, bind, read_text.
  rewrite Hf, Hr, Hd. unfold write_text. cbn [fs log opened_r].
  now rewrite Hf, Hw.
Qed.

Lemma run_ok w f t :
  fs w !! target = Some f -> readable f = true ->
  decode (bytes f) = Some t -> writable f = true ->
  run w =
  (World (<[target := File (encode (transform t)) true true]> (fs w))
         (stdout w ++ [confirmation])
         (trace w ++ [EvOpen target ModeR utf8] ++ [EvRead target] ++
          [EvOpen target ModeW utf8] ++
          [EvWrite target (encode (transform t))] ++ [EvPrint confirmation])
         (clock w) (argv w) (environ w),
   inr tt).
Proof.
  intros Hf Hr Hd Hw. unfold run, main, bind, read_text.
  rewrite Hf, Hr, Hd. unfold write_text. cbn [fs log opened_r].
  rewrite Hf, Hw, Hr. unfold print, put_line, log, set_fs, transform.
  cbn [fs stdout trace clock argv environ].
  rewrite <- !app_assoc. reflexivity.
Qed.

(** Every run ends in one of five ways. *)
Lemma run_cases w :
  (fs w !! target = None /\ run w = (opened_r w, inl FileNotFoundError)) \/
  (exists f, fs w !! target = Some f /\ readable f = false /\
             run w = (opened_r w, inl PermissionError)) \/
  (exists f, fs w !! target = Some f /\ readable f = true /\
             decode (bytes f) = None /\
             run w = (log (EvRead target) (opened_r w), inl UnicodeDecodeError)) \/
  (exists f t, fs w !! target = Some f /\ readable f = true /\
               decode (bytes f) = Some t /\ writable f = false /\
               run w = (log (EvOpen target ModeW utf8)
                          (log (EvRead target) (opened_r w)),
                        inl PermissionError)) \/
  (exists f t, fs w !! target = Some f /\ readable f = true /\
               decode (bytes f) = Some t /\ writable f = true /\
               snd (run w) = inr tt).
Proof.
  destruct (fs w !! target) as [f|] eqn:Hf.
  2:{ left. split; [reflexivity|]. now apply run_missing. }
  right. destruct (readable f) eqn:Hr.
  2:{ left. exists f. repeat split; auto. now apply (run_unreadable w f). }
  right. destruct (decode (bytes f)) as [t|] eqn:Hd.
  2:{ left. exists f. repeat split; auto. now apply (run_undecodable w f). }
  right. destruct (writable f) eqn:Hw.
  2:{ left. exists f, t. repeat split; auto. now apply (run_readonly w f t). }
  right. exists f, t. repeat split; auto.
  now rewrite (run_ok w f t).
Qed.
Lemma same_target_same_result (w1 w2 : world) :
  fs w1 !! target = fs w2 !! target ->
  snd (run w1) = snd (run w2) /\
  fs (fst (run w1)) !! target = fs (fst (run w2)) !! target /\
  skipn (length (stdout w1)) (stdout (fst (run w1))) =
  skipn (length (stdout w2)) (stdout (fst (run w2))).
Proof.
  intros E.
  destruct (run_cases w1) as
    [[Hf R1] | [(f & Hf & Hr & R1) | [(f & Hf & Hr & Hd & R1) |
     [(f & t & Hf & Hr & Hd & Hw & R1) | (f & t & Hf & Hr & Hd & Hw & _)]]]].
  - rewrite R1, (run_missing w2) by congruence. simpl.
    rewrite !skipn_all. auto.
  - rewrite R1, (run_unreadable w2 f) by congruence. simpl.
    rewrite !skipn_all. auto.
  - rewrite R1, (run_undecodable w2 f) by congruence. simpl.
    rewrite !skipn_all. auto.
  - rewrite R1, (run_readonly w2 f t) by congruence. simpl.
    rewrite !skipn_all. auto.
  - rewrite (run_ok w1 f t), (run_ok w2 f t) by congruence. simpl.
    rewrite !lookup_insert_eq, !drop_app_length. auto.
Qed.

(** What a run leaves alone. *)
Lemma run_frame (w : world) :
  (forall p, p <> target -> fs (fst (run w)) !! p = fs w !! p) /\
  clock (fst (run w)) = clock w /\ argv (fst (run w)) = argv w /\
  environ (fst (run w)) = environ w.
Proof.
  destruct (run_cases w) as
    [[Hf R1] | [(f & Hf & Hr & R1) | [(f & Hf & Hr & Hd & R1) |
     [(f & t & Hf & Hr & Hd & Hw & R1) | (f & t & Hf & Hr & Hd & Hw & _)]]]];
    try (rewrite R1; simpl; auto).
  rewrite (run_ok w f t) by assumption. simpl. repeat split.
  intros p Hp. now rewrite lookup_insert_ne.
Qed.

(** The events of a run, after those that were there. *)
Lemma run_trace (w : world) :
  exists evs, trace (fst (run w)) = trace w ++ evs /\
    (forall p m enc, In (EvOpen p m enc) evs -> p = target /\ enc = utf8) /\
    (forall p, In (EvRead p) evs -> p = target) /\
    (forall p d, In (EvWrite p d) evs -> p = target).
Proof.
  destruct (run_cases w) as
    [[Hf R1] | [(f & Hf & Hr & R1) | [(f & Hf & Hr & Hd & R1) |
     [(f & t & Hf & Hr & Hd & Hw & R1) | (f & t & Hf & Hr & Hd & Hw & R1)]]]].
  - rewrite R1. exists [EvOpen target ModeR utf8]. simpl.
    repeat split; intros; intuition congruence.
  - rewrite R1. exists [EvOpen target ModeR utf8]. simpl.
    repeat split; intros; intuition congruence.
  - rewrite R1. exists [EvOpen target ModeR utf8; EvRead target]. simpl.
    rewrite <- app_assoc.
    repeat split; intros; intuition congruence.
  - rewrite R1.
    exists [EvOpen target ModeR utf8; EvRead target; EvOpen target ModeW utf8].
    simpl. rewrite <- !app_assoc.
    repeat split; intros; intuition congruence.
  - rewrite (run_ok w f t) by assumption.
    eexists. simpl. split; [reflexivity|].
    repeat split; intros; simpl in *; intuition congruence.
Qed.
End Runs.

End ScriptFacts.

(** * Texts made of plain stretches and blocks *)

Module ItemFacts.
Import RegexFacts MatchFacts SubFacts BlockFacts ShapeFacts.

Lemma no_starts_at z k : no_starts z = true -> k < 6 ->
  starts_with (skipn k kw) z = false.
Proof.
  unfold no_starts. rewrite forallb_forall. intros H Hk.
  apply negb_true_iff, H, in_seq. lia.
Qed.

Lemma skipn_step {A} k (l : list A) a q : skipn k l = a :: q -> skipn (S k) l = q.
Proof.
  revert l. induction k as [|k IH]; intros [|x l] E; simpl in *; try discriminate.
  - now injection E as _ ->.
  - now apply IH.
Qed.

Lemma skipn_short {A} k (l : list A) a q : skipn k l = a :: q -> k < length l.
Proof.
  revert l. induction k as [|k IH]; intros [|x l] E; simpl in *; try discriminate.
  - lia.
  - apply IH in E. lia.
Qed.

(** What follows a text does not matter to a comparison with an end piece
    of return when it begins with no such piece. *)
Lemma starts_ctx z : no_starts z = true ->
  forall u k, starts_with (skipn k kw) (u ++ z) = starts_with (skipn k kw) u.
Proof.
  intros Hz. induction u as [|c u IH]; intros k.
  - cbn [app]. destruct (skipn k kw) as [|a q] eqn:E; [reflexivity|].
    transitivity false; [|reflexivity].
    rewrite <- E. apply no_starts_at; [exact Hz|].
    apply skipn_short in E. exact E.
  - destruct (skipn k kw) as [|a q] eqn:E; [reflexivity|].
    simpl. apply skipn_step in E. rewrite <- E. now rewrite IH.
Qed.

Lemma lead_ctx_sealed z u : sealed z = true -> lead kw (u ++ z) = lead kw u.
Proof.
  unfold sealed. rewrite andb_true_iff, negb_true_iff. intros [Hl Hz].
  induction u as [|c u IH]; [exact Hl|].
  cbn [app lead]. destruct (is_space c); [exact IH|].
  exact (starts_ctx z Hz (c :: u) 0).
Qed.

Lemma lead_ctx_tight z u :
  no_starts z = true -> nonempty u = true -> ends_tight u = true ->
  lead kw (u ++ z) = lead kw u.
Proof.
  intros Hz. induction u as [|c u IH]; [discriminate|]. intros _ Het.
  cbn [app lead]. destruct (is_space c) eqn:Hc.
  - destruct u as [|d u]; [simpl in Het; rewrite Hc in Het; discriminate|].
    apply IH; [reflexivity | exact Het].
  - exact (starts_ctx z Hz (c :: u) 0).
Qed.

Lemma calm_ctx_sealed z u :
  sealed z = true -> calm (length u) (u ++ z) = calm (length u) u.
Proof.
  intros Hz. induction u as [|c u IH]; [reflexivity|].
  cbn [length calm app]. rewrite IH. f_equal.
  unfold opens. change (lead kw (c :: u ++ z)) with (lead kw ((c :: u) ++ z)).
  now rewrite (lead_ctx_sealed z (c :: u) Hz).
Qed.

Lemma calm_ctx_tight z u :
  no_starts z = true -> ends_tight u = true ->
  calm (length u) (u ++ z) = calm (length u) u.
Proof.
  intros Hz. induction u as [|c u IH]; [reflexivity|]. intros Het.
  cbn [length calm app]. f_equal.
  - unfold opens. change (lead kw (c :: u ++ z)) with (lead kw ((c :: u) ++ z)).
    now rewrite (lead_ctx_tight z (c :: u) Hz).
  - destruct u as [|d u]; [reflexivity|]. apply IH. exact Het.
Qed.

(** Calm over a text in two parts. *)
Lemma calm_app a b z :
  calm (length (a ++ b)) ((a ++ b) ++ z) =
  calm (length a) (a ++ b ++ z) && calm (length b) (b ++ z).
Proof.
  induction a as [|c a IH]; [reflexivity|].
  cbn [app length calm]. rewrite IH. now rewrite andb_assoc, <- app_assoc.
Qed.

Lemma calm_word a z :
  forallb (fun c => negb (is_space c)) a = true ->
  calm (length a) (a ++ z) = true.
Proof.
  induction a as [|c a IH]; [reflexivity|]. simpl. intros H.
  apply andb_prop in H. destruct H as [Hc Ha].
  apply negb_true_iff in Hc. rewrite Hc. simpl. auto.
Qed.

Lemma calm_run w z :
  all_space w = true -> lead kw z = false -> calm (length w) (w ++ z) = true.
Proof.
  intros Hw Hz. induction w as [|c w IH]; [reflexivity|].
  simpl in Hw. apply andb_prop in Hw. destruct Hw as [Hc Hw].
  cbn [app length calm]. rewrite (IH Hw), andb_true_r.
  unfold opens. rewrite Hc. cbn [andb lead]. rewrite Hc.
  rewrite lead_spaces by exact Hw. now rewrite Hz.
Qed.

(** A match opens. *)
Lemma block_opens flag l v :
  spaces_ok l = true -> opens (block flag l ++ v) = true.
Proof.
  intros Hs. apply spaces_ok_inv in Hs as Hs'. destruct Hs' as (S1 & _).
  unfold spaces_ok in Hs. rewrite !andb_true_iff in Hs.
  destruct Hs as (((((((((((_ & N1) & _) & _) & _) & _) & _) & _) & _) & _) & _) & _).
  unfold block, head. rewrite <- !app_assoc.
  assert (Hl : lead kw (ws_ret l ++ str "return" ++ ws_brace l ++ str "{" ++
                ws_succ l ++ str "success:" ++ ws_flag l ++ str flag ++
                ws_data l ++ str "data:" ++ ws_dat l ++ dat l ++ str "," ++
                tail l ++ closing l ++ v) = true)
    by (rewrite lead_spaces by exact S1; reflexivity).
  destruct (ws_ret l) as [|c w]; [discriminate|].
  simpl in S1. apply andb_prop in S1. destruct S1 as [Hc _].
  unfold opens. cbn [app]. cbn [app] in Hl. now rewrite Hc, Hl.
Qed.

Lemma calm_quiet n : forall s, calm n s = true ->
  quiet rexA n s = true /\ quiet rexB n s = true.
Proof.
  induction n as [|n IH]; intros s H; [auto|].
  cbn [calm] in H. apply andb_prop in H. destruct H as [Ho Hc].
  apply negb_true_iff in Ho.
  assert (HA : no_match rexA s = true).
  { unfold no_match. destruct (match_at rexA s) as [[e ms]|] eqn:Hm; [|reflexivity].
    apply rexA_shape in Hm. destruct Hm as (l & v & -> & _ & Hs & _).
    unfold blockA in Ho. rewrite block_opens in Ho by exact Hs. discriminate. }
  assert (HB : no_match rexB s = true).
  { unfold no_match. destruct (match_at rexB s) as [[e ms]|] eqn:Hm; [|reflexivity].
    apply rexB_shape in Hm. destruct Hm as (l & v & -> & _ & Hs & _).
    unfold blockB in Ho. rewrite block_opens in Ho by exact Hs. discriminate. }
  cbn [quiet]. rewrite HA, HB. cbn [andb].
  destruct s as [|c s]; [auto|]. apply IH. exact Hc.
Qed.

Lemma quiet_app r a b z :
  quiet r (length (a ++ b)) ((a ++ b) ++ z) =
  quiet r (length a) (a ++ b ++ z) && quiet r (length b) (b ++ z).
Proof.
  induction a as [|c a IH]; [reflexivity|].
  cbn [app length quiet]. rewrite IH. now rewrite andb_assoc, <- app_assoc.
Qed.

Lemma no_starts_space c z : is_space c = true -> no_starts (c :: z) = true.
Proof.
  intros Hc. unfold no_starts. cbn [seq forallb skipn kw str starts_with].
  assert (H : forall a, is_space a = false -> (a =? c)%N = false).
  { intros a Ha. destruct (N.eqb_spec a c) as [->|]; [congruence | reflexivity]. }
  rewrite !H by reflexivity. reflexivity.
Qed.

Lemma no_starts_run w z :
  all_space w = true -> no_starts z = true -> no_starts (w ++ z) = true.
Proof.
  destruct w as [|c w]; [auto|]. simpl. intros Hw _.
  apply andb_prop in Hw. destruct Hw as [Hc _]. now apply no_starts_space.
Qed.

Lemma sealed_run w z :
  all_space w = true -> sealed z = true -> sealed (w ++ z) = true.
Proof.
  unfold sealed. rewrite !andb_true_iff. intros Hw [Hl Hz]. split.
  - now rewrite lead_spaces.
  - now apply no_starts_run.
Qed.

Section Interior.
Variable l : layout.
Hypothesis Hs : spaces_ok l = true.
Hypothesis Hdi : inert (dat l) = true.
Hypothesis Hdl : lead kw (dat l) = false.
Hypothesis Hmi : inert (msg l) = true.
Hypothesis Hml : lead kw (msg l) = false.

Ltac spaces :=
  let H := fresh in
  pose proof (spaces_ok_inv l Hs) as H; tauto.

Lemma calm_hcore_true z :
  calm (length (hcore "true," l)) (hcore "true," l ++ z) = true.
Proof.
  unfold hcore. rewrite !calm_app, !andb_true_iff. repeat split;
    try (apply calm_word; reflexivity);
    try (apply calm_run; [spaces | reflexivity]).
  - apply calm_run; [spaces|]. rewrite <- ?app_assoc.
    rewrite (lead_ctx_sealed (str "," ++ z) (dat l)); [exact Hdl | reflexivity].
  - rewrite <- ?app_assoc.
    rewrite (calm_ctx_sealed (str "," ++ z) (dat l)); [exact Hdi | reflexivity].
Qed.

Lemma calm_hcore_false z :
  calm (length (hcore "false," l)) (hcore "false," l ++ z) = true.
Proof.
  unfold hcore. rewrite !calm_app, !andb_true_iff. repeat split;
    try (apply calm_word; reflexivity);
    try (apply calm_run; [spaces | reflexivity]).
  - apply calm_run; [spaces|]. rewrite <- ?app_assoc.
    rewrite (lead_ctx_sealed (str "," ++ z) (dat l)); [exact Hdl | reflexivity].
  - rewrite <- ?app_assoc.
    rewrite (calm_ctx_sealed (str "," ++ z) (dat l)); [exact Hdi | reflexivity].
Qed.

Lemma sealed_closing z : sealed (ws_close l ++ str "};" ++ z) = true.
Proof. apply sealed_run; [spaces | reflexivity]. Qed.

(** The message and what encloses it in a block as it was written by hand. *)
Lemma calm_tail z :
  calm (length (tail l ++ str "};")) ((tail l ++ str "};") ++ z) = true.
Proof.
  assert (E : tail l ++ str "};" =
              ws_msg l ++ str "message:" ++ ws_val l ++ msg l ++
              ws_close l ++ str "};")
    by (unfold tail, before_msg; now rewrite <- !app_assoc).
  rewrite E. rewrite !calm_app, !andb_true_iff. repeat split;
    try (apply calm_word; reflexivity);
    try (apply calm_run; [spaces | reflexivity]).
  - apply calm_run; [spaces|]. rewrite <- ?app_assoc.
    rewrite (lead_ctx_sealed (ws_close l ++ str "};" ++ z) (msg l));
      [exact Hml | apply sealed_closing].
  - rewrite <- ?app_assoc.
    rewrite (calm_ctx_sealed (ws_close l ++ str "};" ++ z) (msg l));
      [exact Hmi | apply sealed_closing].
Qed.
End Interior.

Lemma head_hcore flag l : head flag l = ws_ret l ++ hcore flag l.
Proof. reflexivity. Qed.

Lemma spaces_ok_relead l w :
  spaces_ok l = true -> nonempty w = true -> all_space w = true ->
  spaces_ok (relead l w) = true.
Proof.
  unfold spaces_ok, relead.
  cbn [ws_ret ws_brace ws_succ ws_flag ws_data ws_dat dat ws_msg ws_val msg
       ws_close ws_end].
  rewrite !andb_true_iff. tauto.
Qed.

Lemma quiet_lead r ws rest :
  (forall w, nonempty w = true -> all_space w = true ->
             match_at r (w ++ rest) = None) ->
  all_space ws = true -> quiet r (length ws) (ws ++ rest) = true.
Proof.
  intros Hr. induction ws as [|c ws IH]; [reflexivity|]. intros Hw.
  cbn [length quiet app]. apply andb_true_intro. split.
  - apply no_match_None. apply (Hr (c :: ws)); [reflexivity | exact Hw].
  - apply IH. simpl in Hw. apply andb_prop in Hw. tauto.
Qed.

(** No match of [r] begins in a block whose beginning [r] refuses and whose
    inside is calm. *)
Lemma quiet_block r ws m we y :
  r = rexA \/ r = rexB ->
  (forall w, nonempty w = true -> all_space w = true ->
             match_at r (w ++ m ++ we ++ y) = None) ->
  all_space ws = true -> all_space we = true ->
  calm (length m) (m ++ we ++ y) = true ->
  (forall w, nonempty w = true -> all_space w = true ->
             match_at r (w ++ y) = None) ->
  quiet r (length (ws ++ m ++ we)) ((ws ++ m ++ we) ++ y) = true.
Proof.
  intros Hr Hstart Hws Hwe Hm Hy.
  rewrite quiet_app. apply andb_true_intro. split.
  - rewrite <- app_assoc. now apply quiet_lead.
  - rewrite quiet_app. apply andb_true_intro.
    pose proof (calm_quiet _ _ Hm) as [HA HB].
    split; [destruct Hr as [-> | ->]; auto|]. now apply quiet_lead.
Qed.

Section Blocks.
Variable l : layout.
Hypothesis Hs : spaces_ok l = true.
Hypothesis Hk : forallb (mem K1) (dat l) = true.
Hypothesis Hdi : inert (dat l) = true.
Hypothesis Hdl : lead kw (dat l) = false.
Hypothesis Hmi : inert (msg l) = true.
Hypothesis Hml : lead kw (msg l) = false.

(** The insides of the four kinds of block. *)
Lemma calm_raw_true z :
  calm (length (hcore "true," l ++ tail l ++ str "};"))
       ((hcore "true," l ++ tail l ++ str "};") ++ z) = true.
Proof.
  rewrite calm_app. apply andb_true_intro. split.
  - now apply calm_hcore_true.
  - now apply calm_tail.
Qed.

Lemma calm_raw_false z :
  calm (length (hcore "false," l ++ tail l ++ str "};"))
       ((hcore "false," l ++ tail l ++ str "};") ++ z) = true.
Proof.
  rewrite calm_app. apply andb_true_intro. split.
  - now apply calm_hcore_false.
  - now apply calm_tail.
Qed.

Lemma calm_doneA z :
  calm (length (hcore "true," l ++ stamp ++ str "};"))
       ((hcore "true," l ++ stamp ++ str "};") ++ z) = true.
Proof.
  rewrite calm_app. apply andb_true_intro. split.
  - now apply calm_hcore_true.
  - reflexivity.
Qed.

Lemma calm_doneB z :
  calm (length (hcore "false," l ++ err_open ++ msg l ++ err_close ++ str "};"))
       ((hcore "false," l ++ err_open ++ msg l ++ err_close ++ str "};") ++ z)
  = true.
Proof.
  rewrite calm_app. apply andb_true_intro. split.
  - now apply calm_hcore_false.
  - assert (E : err_open ++ msg l ++ err_close ++ str "};" =
                str " error: { code: " ++ code_text ++ str ", message:" ++
                str " " ++ msg l ++ err_close ++ str "};") by reflexivity.
    rewrite E. rewrite !calm_app, !andb_true_iff.
    repeat split; try reflexivity.
    + apply (calm_run (str " ")); [reflexivity|]. rewrite <- ?app_assoc.
      rewrite (lead_ctx_sealed (err_close ++ str "};" ++ z) (msg l));
        [exact Hml | reflexivity].
    + rewrite <- ?app_assoc.
      rewrite (calm_ctx_sealed (err_close ++ str "};" ++ z) (msg l));
        [exact Hmi | reflexivity].
Qed.
End Blocks.

Lemma compat_nil_l w : compat [] w.
Proof. right. now exists w. Qed.

Lemma compat_cons c s w : compat (c :: s) (c :: w) <-> compat s w.
Proof.
  unfold compat. split; intros [[z E]|[z E]].
  - left. exists z. now injection E.
  - right. exists z. now injection E.
  - left. exists z. simpl. now rewrite E.
  - right. exists z. simpl. now rewrite E.
Qed.

Lemma compat_head c s d w : compat (c :: s) (d :: w) -> c = d /\ compat s w.
Proof.
  intros H. assert (c = d) as ->.
  { destruct H as [[z E]|[z E]]; simpl in E; now injection E. }
  split; [reflexivity|]. exact (proj1 (compat_cons _ _ _) H).
Qed.

Lemma alive_nil r : alive r [] = true.
Proof.
  induction r as [|[c|k pl gr|g|g] r IH]; simpl; auto.
  destruct pl; [reflexivity|]. now rewrite IH.
Qed.

Lemma any_split_run (p : char -> bool) (k : text -> bool) u' :
  k [] = true -> (forall s, compat s u' -> k s = true) ->
  forall w s, forallb p w = true -> compat s (w ++ u') ->
  any_split p k s = true.
Proof.
  intros Hnil Hk. induction w as [|c w IH]; intros s Hw Hc.
  - destruct s; simpl; rewrite (Hk _ Hc); reflexivity.
  - destruct s as [|x s]; [simpl; now rewrite Hnil|].
    simpl in Hw. apply andb_prop in Hw. destruct Hw as [Hpc Hw].
    cbn [app] in Hc. apply compat_head in Hc. destruct Hc as [-> Hc].
    simpl. rewrite Hpc, (IH s Hw Hc). apply orb_true_r.
Qed.

(** Whatever begins a word of the pattern, or begins with one, is alive. *)
Lemma alive_complete r : forall w s, lang r w -> compat s w -> alive r s = true.
Proof.
  induction r as [|a r IH]; intros w s Hl Hc; [reflexivity|].
  destruct a as [c|k pl gr|g|g]; simpl in Hl.
  - destruct Hl as (u' & -> & Hl). destruct s as [|x s]; [reflexivity|].
    apply compat_head in Hc. destruct Hc as [-> Hc].
    simpl. rewrite N.eqb_refl. now apply (IH u').
  - destruct Hl as (w1 & u' & -> & Hw & Hpl & Hl).
    assert (Hs : forall w s, forallb (mem k) w = true -> compat s (w ++ u') ->
                 any_split (mem k) (alive r) s = true).
    { apply any_split_run; [apply alive_nil|]. intros s' Hs'. now apply (IH u'). }
    simpl. destruct pl.
    + destruct s as [|x s]; [reflexivity|].
      destruct w1 as [|c w1]; [now contradiction Hpl|].
      simpl in Hw. apply andb_prop in Hw. destruct Hw as [Hpc Hw].
      cbn [app] in Hc. apply compat_head in Hc. destruct Hc as [-> Hc].
      rewrite Hpc. now apply (Hs w1).
    + now apply (Hs w1).
  - now apply (IH w).
  - now apply (IH w).
Qed.

(** A text on which a pattern has died begins no match, whatever follows. *)
Lemma dead_no_match r s z : alive r s = false -> match_at r (s ++ z) = None.
Proof.
  intros Hd. destruct (match_at r (s ++ z)) as [[e ms]|] eqn:Hm; [|reflexivity].
  apply rmatch_sound in Hm. destruct Hm as (u & v & E & Hu & _).
  rewrite (alive_complete r u s Hu) in Hd; [discriminate|].
  apply app_eq_app in E. destruct E as (q & [[-> _]|[-> _]]).
  - left. now exists q.
  - right. now exists q.
Qed.

(** The same after a run of white space, for a pattern that begins as the
    two rules do. *)
Lemma dead_after_run g c0 r w u y :
  is_space c0 = false ->
  all_space w = true -> nonempty w = true ->
  nonempty u = true -> tight u = true ->
  alive (GOpen g :: plus Space :: Lit c0 :: r) (blank :: u) = false ->
  match_at (GOpen g :: plus Space :: Lit c0 :: r) (w ++ u ++ y) = None.
Proof.
  intros Hc0 Hw Hne Hu1 Hu2 Hd.
  destruct (match_at _ (w ++ u ++ y)) as [[e ms]|] eqn:Hm; [|reflexivity].
  apply rmatch_sound in Hm. destruct Hm as (word & v & E & Hl & _).
  simpl in Hl. destruct Hl as (w' & u' & -> & Hw' & Hpl & u'' & -> & Hl).
  rewrite <- app_assoc in E. cbn [app] in E.
  destruct u as [|x u]; [discriminate|]. simpl in Hu2.
  apply negb_true_iff in Hu2. cbn [app] in E.
  destruct (run_align is_space w w' x c0 (u ++ y) (u'' ++ v) Hw Hw' Hu2 Hc0 E)
    as (_ & -> & E').
  rewrite (alive_complete _ (blank :: c0 :: u'') (blank :: c0 :: u)) in Hd;
    [discriminate | |].
  - simpl. exists [blank], (c0 :: u''). repeat split; [discriminate|].
    exists u''. auto.
  - apply (proj2 (compat_cons _ _ _)), (proj2 (compat_cons _ _ _)).
    apply app_eq_app in E'.
    destruct E' as (q & [[-> _]|[-> _]]).
    + left. now exists q.
    + right. now exists q.
Qed.

(** Where no white space is followed by return no match begins. *)
Lemma no_open_no_match s : opens s = false ->
  match_at rexA s = None /\ match_at rexB s = None.
Proof.
  intros Ho. split.
  - destruct (match_at rexA s) as [[e ms]|] eqn:Hm; [|reflexivity].
    apply rexA_shape in Hm. destruct Hm as (l & v & -> & _ & Hs & _).
    unfold blockA in Ho. rewrite block_opens in Ho by exact Hs. discriminate.
  - destruct (match_at rexB s) as [[e ms]|] eqn:Hm; [|reflexivity].
    apply rexB_shape in Hm. destruct Hm as (l & v & -> & _ & Hs & _).
    unfold blockB in Ho. rewrite block_opens in Ho by exact Hs. discriminate.
Qed.

Lemma may_begin_no_match s z :
  may_begin s = false -> opens (s ++ z) = opens s ->
  match_at rexA (s ++ z) = None /\ match_at rexB (s ++ z) = None.
Proof.
  unfold may_begin. intros H Ho. apply andb_false_iff in H.
  destruct H as [H|H].
  - apply no_open_no_match. now rewrite Ho.
  - apply orb_false_iff in H. destruct H as [HA HB].
    split; now apply dead_no_match.
Qed.

Lemma rexA_begins :
  rexA = GOpen 1 :: plus Space :: Lit 114%N :: tl (tl (tl rexA)).
Proof. reflexivity. Qed.

Lemma rexB_begins :
  rexB = GOpen 1 :: plus Space :: Lit 114%N :: tl (tl (tl rexB)).
Proof. reflexivity. Qed.

(** After a run of white space no match begins at a text that a blank
    before it does not let begin one. *)
Lemma run_no_match w u y :
  all_space w = true -> nonempty w = true ->
  nonempty u = true -> tight u = true ->
  may_begin (blank :: u) = false -> lead kw (u ++ y) = lead kw u ->
  match_at rexA (w ++ u ++ y) = None /\ match_at rexB (w ++ u ++ y) = None.
Proof.
  intros Hw Hne Hu1 Hu2 H Hl. unfold may_begin in H.
  apply andb_false_iff in H. destruct H as [H|H].
  - apply no_open_no_match. destruct w as [|c w]; [discriminate|].
    simpl in Hw. apply andb_prop in Hw. destruct Hw as [Hc Hw].
    unfold opens. cbn [app lead]. rewrite Hc. cbn [andb].
    rewrite lead_spaces by exact Hw. rewrite Hl.
    unfold opens in H. cbn [lead] in H. exact H.
  - apply orb_false_iff in H. destruct H as [HA HB]. split.
    + rewrite rexA_begins in HA |- *.
      apply dead_after_run; [reflexivity | assumption ..].
    + rewrite rexB_begins in HB |- *.
      apply dead_after_run; [reflexivity | assumption ..].
Qed.

Lemma render_app a b : render (a ++ b) = render a ++ render b.
Proof.
  induction a as [|i a IH]; [reflexivity|].
  cbn [app render]. now rewrite IH, app_assoc.
Qed.

Lemma render_block k st l :
  render_item (Block k st l) = ws_ret l ++ middle k st l ++ ws_end l.
Proof.
  destruct k, st; cbn [render_item middle];
    unfold blockA, blockB, block, outA, outB, outB_with, closing,
      err_open, err_close;
    rewrite head_hcore, <- ?app_assoc; reflexivity.
Qed.

Lemma block_ok_inv k l : block_ok k l = true ->
  spaces_ok l = true /\ forallb (mem K1) (dat l) = true /\
  inert (dat l) = true /\ lead kw (dat l) = false /\
  inert (msg l) = true /\ lead kw (msg l) = false /\
  match k with KA => okA l | KB => okB l end = true.
Proof.
  unfold block_ok. rewrite !andb_true_iff, !negb_true_iff.
  intros ((((Hok & H1) & H2) & H3) & H4).
  assert (Hsd : spaces_ok l = true /\ dat_ok l = true).
  { destruct k.
    - apply okA_inv in Hok. tauto.
    - apply okB_inv in Hok. tauto. }
  destruct Hsd as [Hs Hd]. unfold dat_ok in Hd. rewrite !andb_true_iff in Hd.
  repeat split; tauto.
Qed.

Lemma calm_middle k st l z : block_ok k l = true ->
  calm (length (middle k st l)) (middle k st l ++ z) = true.
Proof.
  intros H. apply block_ok_inv in H.
  destruct H as (Hs & _ & Hdi & Hdl & Hmi & Hml & _).
  destruct k, st; cbn [middle].
  - now apply calm_raw_true.
  - now apply calm_doneA.
  - now apply calm_raw_false.
  - now apply calm_doneB.
Qed.

Lemma relead_head flag l w X :
  w ++ hcore flag l ++ X = head flag (relead l w) ++ X.
Proof.
  rewrite (head_hcore flag (relead l w)), <- app_assoc. reflexivity.
Qed.

(** Rule A refuses the beginning of every block but a success block as it
    was written by hand; Rule B every block but such an error block. *)
Lemma startA k st l w y :
  block_ok k l = true -> (k, st) <> (KA, Raw) ->
  nonempty w = true -> all_space w = true ->
  match_at rexA (w ++ middle k st l ++ ws_end l ++ y) = None.
Proof.
  intros H Hne Hw1 Hw2. apply block_ok_inv in H.
  destruct H as (Hs & Hk & _).
  pose proof (spaces_ok_relead l w Hs Hw1 Hw2) as Hs'.
  destruct k, st; cbn [middle]; try congruence; rewrite <- ?app_assoc;
    rewrite relead_head.
  - apply (rexA_needs_message (relead l w)); auto.
  - apply (rexA_needs_true (relead l w)); auto.
  - apply (rexA_needs_true (relead l w)); auto.
Qed.

Lemma startB k st l w y :
  block_ok k l = true -> (k, st) <> (KB, Raw) ->
  nonempty w = true -> all_space w = true ->
  match_at rexB (w ++ middle k st l ++ ws_end l ++ y) = None.
Proof.
  intros H Hne Hw1 Hw2. apply block_ok_inv in H.
  destruct H as (Hs & Hk & _).
  pose proof (spaces_ok_relead l w Hs Hw1 Hw2) as Hs'.
  destruct k, st; cbn [middle]; try congruence; rewrite <- ?app_assoc;
    rewrite relead_head.
  - apply (rexB_needs_false (relead l w)); auto.
  - apply (rexB_needs_false (relead l w)); auto.
  - apply (rexB_needs_message (relead l w)); auto.
Qed.

Lemma ruleA_copies k st l y :
  block_ok k l = true -> (k, st) <> (KA, Raw) ->
  (forall w, nonempty w = true -> all_space w = true ->
             match_at rexA (w ++ y) = None) ->
  ruleA (render_item (Block k st l) ++ y) =
  render_item (Block k st l) ++ ruleA y.
Proof.
  intros H Hne Hy. apply ruleA_skip. rewrite render_block.
  pose proof (block_ok_inv k l H) as (Hs & _).
  apply spaces_ok_inv in Hs.
  apply quiet_block; auto; try tauto.
  - intros w Hw1 Hw2. now apply startA.
  - now apply calm_middle.
Qed.

Lemma ruleB_copies k st l y :
  block_ok k l = true -> (k, st) <> (KB, Raw) ->
  (forall w, nonempty w = true -> all_space w = true ->
             match_at rexB (w ++ y) = None) ->
  ruleB (render_item (Block k st l) ++ y) =
  render_item (Block k st l) ++ ruleB y.
Proof.
  intros H Hne Hy. apply ruleB_skip. rewrite render_block.
  pose proof (block_ok_inv k l H) as (Hs & _).
  apply spaces_ok_inv in Hs.
  apply quiet_block; auto; try tauto.
  - intros w Hw1 Hw2. now apply startB.
  - now apply calm_middle.
Qed.

(** Both rules copy a plain stretch. *)
Lemma plain_quiet u y :
  still u = true -> (y = [] \/ (ends_tight u = true /\ no_starts y = true)) ->
  quiet rexA (length u) (u ++ y) = true /\ quiet rexB (length u) (u ++ y) = true.
Proof.
  unfold still. induction u as [|c u IH]; [auto|]. intros Hs Hy.
  cbn [length steady] in Hs. apply andb_prop in Hs. destruct Hs as [Hb Hs].
  apply negb_true_iff in Hb.
  assert (Ho : opens ((c :: u) ++ y) = opens (c :: u)).
  { destruct Hy as [-> | [Het Hz]]; [now rewrite app_nil_r|].
    unfold opens at 1. cbn [app].
    change (lead kw (c :: u ++ y)) with (lead kw ((c :: u) ++ y)).
    rewrite lead_ctx_tight by (assumption || reflexivity). reflexivity. }
  destruct (may_begin_no_match _ y Hb Ho) as [HA HB].
  assert (Hy' : y = [] \/ (ends_tight u = true /\ no_starts y = true)).
  { destruct Hy as [-> | [Het Hz]]; [now left|]. right.
    destruct u as [|d u]; [split; [reflexivity | exact Hz]|].
    split; [exact Het | exact Hz]. }
  destruct (IH Hs Hy') as [QA QB].
  cbn [length quiet app]. cbn [app] in HA, HB.
  rewrite (no_match_None _ _ HA), (no_match_None _ _ HB). auto.
Qed.

(** What follows a block and what follows a plain stretch. *)
Lemma after_plain its :
  good AfterPlain its = true -> its = [] \/ no_starts (render its) = true.
Proof.
  destruct its as [|[u|k st l] its]; [auto| discriminate |].
  cbn [good]. rewrite !andb_true_iff. intros [[_ Hb] _]. right.
  apply block_ok_inv in Hb. destruct Hb as (Hs & _).
  cbn [render]. rewrite render_block, <- !app_assoc.
  unfold spaces_ok in Hs. rewrite !andb_true_iff in Hs.
  destruct Hs as (((((((((((S1 & N1) & _) & _) & _) & _) & _) & _) & _) & _) & _) & _).
  destruct (ws_ret l) as [|c w]; [discriminate|].
  simpl in S1. apply andb_prop in S1. destruct S1 as [Hc _].
  now apply no_starts_space.
Qed.

Lemma after_block its :
  good AfterBlock its = true ->
  tight (render its) = true /\
  forall w, nonempty w = true -> all_space w = true ->
    match_at rexA (w ++ render its) = None /\
    match_at rexB (w ++ render its) = None.
Proof.
  destruct its as [|[u|k st l] its]; [| | discriminate].
  - intros _. split; [reflexivity|]. intros w H1 H2.
    apply no_open_no_match. cbn [render].
    assert (Hl : lead kw (w ++ []) = false) by now rewrite lead_spaces.
    destruct w as [|c w]; [discriminate|].
    simpl in H2. apply andb_prop in H2. destruct H2 as [Hc _].
    unfold opens. cbn [app] in *. now rewrite Hc, Hl.
  - cbn [good render]. rewrite !andb_true_iff, !negb_true_iff.
    intros (((([Ht Hb] & Hn) & Hi) & He) & Hg).
    split; [now apply tight_app|]. intros w H1 H2.
    apply run_no_match; auto.
    destruct (after_plain its Hg) as [-> | Hz]; [now rewrite app_nil_r|].
    destruct its as [|i its]; [now rewrite app_nil_r|].
    now rewrite lead_ctx_tight.
Qed.

Lemma good_map f p its :
  (forall i, match i, f i with
             | Plain u, Plain u' => u = u'
             | Block k _ l, Block k' _ l' => k = k' /\ l = l'
             | _, _ => False
             end) ->
  good p (map f its) = good p its.
Proof.
  intros Hf. revert p. induction its as [|i its IH]; intros p; [reflexivity|].
  cbn [map]. pose proof (Hf i) as Hi.
  destruct i as [u|k st l]; destruct (f _) as [u'|k' st' l'];
    try contradiction.
  - subst u'. cbn [good]. rewrite IH. destruct its; reflexivity.
  - destruct Hi as [-> ->]. cbn [good]. now rewrite IH.
Qed.

Lemma good_stepA p its : good p (map stepA its) = good p its.
Proof. apply good_map. intros [u|[] [] l]; simpl; auto. Qed.

Lemma good_stepB p its : good p (map stepB its) = good p its.
Proof. apply good_map. intros [u|[] [] l]; simpl; auto. Qed.

(** Each rule, item by item. *)
Lemma ruleA_items : forall its p,
  good p its = true -> ruleA (render its) = render (map stepA its).
Proof.
  induction its as [|i its IH]; intros p Hg; [reflexivity|].
  destruct i as [u|k st l]; cbn [good] in Hg; rewrite !andb_true_iff in Hg.
  - destruct Hg as ((((_ & Hn) & Hi) & He) & Hg). cbn [render map stepA render_item].
    rewrite ruleA_skip; [now rewrite (IH _ Hg)|].
    apply plain_quiet; [exact Hi|].
    destruct (after_plain its Hg) as [-> | Hz]; [now left|].
    destruct its; [now left | right; auto].
  - destruct Hg as ((_ & Hb) & Hg). cbn [render map].
    destruct (after_block its Hg) as [Ht Hl].
    destruct k, st; cbn [stepA];
      try (rewrite ruleA_copies;
           [now rewrite (IH _ Hg) | exact Hb | congruence
           | exact (fun w H1 H2 => proj1 (Hl w H1 H2))]).
    cbn [render_item]. rewrite ruleA_block; [now rewrite (IH _ Hg) | | exact Ht].
    apply block_ok_inv in Hb. tauto.
Qed.

Lemma ruleB_items : forall its p,
  good p its = true -> ruleB (render its) = render (map stepB its).
Proof.
  induction its as [|i its IH]; intros p Hg; [reflexivity|].
  destruct i as [u|k st l]; cbn [good] in Hg; rewrite !andb_true_iff in Hg.
  - destruct Hg as ((((_ & Hn) & Hi) & He) & Hg). cbn [render map stepB render_item].
    rewrite ruleB_skip; [now rewrite (IH _ Hg)|].
    apply plain_quiet; [exact Hi|].
    destruct (after_plain its Hg) as [-> | Hz]; [now left|].
    destruct its; [now left | right; auto].
  - destruct Hg as ((_ & Hb) & Hg). cbn [render map].
    destruct (after_block its Hg) as [Ht Hl].
    destruct k, st; cbn [stepB];
      try (rewrite ruleB_copies;
           [now rewrite (IH _ Hg) | exact Hb | congruence
           | exact (fun w H1 H2 => proj2 (Hl w H1 H2))]).
    cbn [render_item]. rewrite ruleB_block; [now rewrite (IH _ Hg) | | exact Ht].
    apply block_ok_inv in Hb. tauto.
Qed.

Lemma step_twice i : stepB (stepA (stepB (stepA i))) = stepB (stepA i).
Proof. destruct i as [u|[] [] l]; reflexivity. Qed.

Lemma step_swap i : stepB (stepA i) = stepA (stepB i).
Proof. destruct i as [u|[] [] l]; reflexivity. Qed.

(** The transformation, item by item. *)
Lemma transform_items p its :
  good p its = true ->
  transform (render its) = render (map stepB (map stepA its)).
Proof.
  intros Hg. unfold transform. rewrite (ruleA_items its p Hg).
  apply (ruleB_items _ p). now rewrite good_stepA.
Qed.

Lemma transform_items_twice p its :
  good p its = true ->
  transform (transform (render its)) = transform (render its).
Proof.
  intros Hg. rewrite (transform_items p its Hg).
  rewrite (transform_items p).
  - f_equal. rewrite !map_map. apply map_ext. intros i. apply step_twice.
  - now rewrite good_stepB, good_stepA.
Qed.

Lemma rules_commute_items p its :
  good p its = true ->
  ruleB (ruleA (render its)) = ruleA (ruleB (render its)).
Proof.
  intros Hg. rewrite (ruleA_items its p Hg), (ruleB_items its p Hg).
  rewrite (ruleB_items _ p) by (now rewrite good_stepA).
  rewrite (ruleA_items _ p) by (now rewrite good_stepB).
  f_equal. rewrite !map_map. apply map_ext. intros i. apply step_swap.
Qed.

End ItemFacts.

(** * The properties of the two rules *)

Module Properties.
Import RegexFacts MatchFacts SubFacts BlockFacts ShapeFacts ItemFacts.

(** C1, as the code has it.  Let the text be pre, then a success block, then
    post, where
    - the block has the shape Rule A reads: white space before return and
      between return and the opening brace; a data expression that is not
      empty, does not begin with white space and holds no comma and no
      closing brace; a message that is not empty, does not begin with white
      space and holds no closing brace; a semicolon right after the closing
      brace;
    - the block is taken with all the white space after its semicolon: post
      is empty or begins with a character that is not white space;
    - no match of Rule A begins in pre;
    - in the text Rule A leaves (pre, the rewritten block, post as Rule A
      rewrites it) no match of Rule B begins before the end of the
      rewritten block.
    Then Rule A writes the block with the message and the white space
    before the closing brace replaced by the text
    timestamp: new Date().toISOString(), group 1 (success and data) and the
    closing kept, and the transformed text is pre, this block, and the
    transformed post. *)
Theorem success_block_rewritten pre l post :
  okA l = true -> tight post = true ->
  quiet rexA (length pre) (pre ++ blockA l ++ post) = true ->
  quiet rexB (length (pre ++ outA l)) (pre ++ outA l ++ ruleA post) = true ->
  ruleA (pre ++ blockA l ++ post) = pre ++ outA l ++ ruleA post /\
  transform (pre ++ blockA l ++ post) = pre ++ outA l ++ transform post.
Proof.
  intros Hok Hpost HqA HqB.
  assert (HA : ruleA (pre ++ blockA l ++ post) = pre ++ outA l ++ ruleA post).
  { unfold ruleA. rewrite sub_frame by exact HqA. f_equal.
    now apply ruleA_block. }
  split; [exact HA|]. unfold transform. rewrite HA.
  rewrite app_assoc. unfold ruleB at 1. rewrite sub_frame.
  - now rewrite <- app_assoc.
  - now rewrite <- app_assoc.
Qed.

Lemma success_block_rewritten_witness :
  transform (before ++ blockA layA ++ after) =
  before ++ outA layA ++ transform after.
Proof.
  apply (success_block_rewritten before layA after); reflexivity.
Defined.

(** C1 as stated fails: a success block whose data is a two-argument call
    keeps its message and gets no timestamp. *)
Lemma two_args_true_unchanged :
  transform two_args_true = two_args_true /\
  occurs (str "message:") (transform two_args_true) = true /\
  occurs (str "timestamp") (transform two_args_true) = false.
Proof. vm_compute. auto. Qed.

(** What Rule B writes for a block, literally: the quotes around
    SERVICE_ERROR come out with a backslash before each. *)
Lemma error_block_text l post :
  okB l = true -> tight post = true ->
  ruleB (blockB l ++ post) =
  head "false," l ++ str " error: { code: \'SERVICE_ERROR\', message: " ++
  msg l ++ str " }, timestamp: new Date().toISOString()" ++ closing l ++
  ruleB post.
Proof.
  intros Hok Hpost. rewrite ruleB_block by assumption.
  unfold outB, outB_with, code_text. rewrite <- !app_assoc. reflexivity.
Qed.

(** C2, as the code has it by design.  Let the text be pre, then an error
    block, then post, where
    - the block has the shape Rule B reads: white space before return and
      between return and the opening brace; a data expression that is not
      empty, does not begin with white space and holds no comma and no
      closing brace; a message that begins with error.response, does not
      end with white space and holds, after error.response, no closing
      brace followed by a semicolon; a semicolon right after the closing
      brace;
    - the block is taken with all the white space after its semicolon: post
      is empty or begins with a character that is not white space;
    - no match of Rule A begins in pre or in the block;
    - in the text Rule A leaves (pre, the block, post as Rule A rewrites
      it) no match of Rule B begins in pre.
    Then the transformed text is pre, the block with the message and the
    white space before the closing brace replaced by an error object that
    holds a code naming SERVICE_ERROR and the message expression verbatim,
    followed by timestamp: new Date().toISOString(), and the transformed
    post; there is no message field left outside the error object. *)
Theorem error_block_rewritten pre l post :
  okB l = true -> tight post = true ->
  quiet rexA (length (pre ++ blockB l)) (pre ++ blockB l ++ post) = true ->
  quiet rexB (length pre) (pre ++ blockB l ++ ruleA post) = true ->
  exists code,
    occurs (str "SERVICE_ERROR") code = true /\
    transform (pre ++ blockB l ++ post) =
    pre ++ outB_with code l ++ transform post.
Proof.
  intros Hok Hpost HqA HqB. exists code_text. split; [reflexivity|].
  unfold transform.
  assert (HA : ruleA (pre ++ blockB l ++ post) = pre ++ blockB l ++ ruleA post).
  { rewrite app_assoc. unfold ruleA at 1. rewrite sub_frame.
    - now rewrite <- app_assoc.
    - now rewrite <- app_assoc. }
  rewrite HA. unfold ruleB at 1. rewrite sub_frame by exact HqB. f_equal.
  apply ruleB_block; [exact Hok|].
  apply tight_sub; [exact tight_no_match_A | exact Hpost].
Qed.

Lemma error_block_rewritten_witness :
  exists code,
    occurs (str "SERVICE_ERROR") code = true /\
    transform (before ++ blockB layB ++ after) =
    before ++ outB_with code layB ++ transform after.
Proof.
  apply (error_block_rewritten before layB after); reflexivity.
Defined.

(** C2 as stated fails: an error block whose data is a two-argument call
    is not rewritten at all. *)
Lemma two_args_false_unchanged :
  transform two_args_false = two_args_false /\
  occurs (str "error: {") (transform two_args_false) = false /\
  occurs (str "timestamp") (transform two_args_false) = false.
Proof. vm_compute. auto. Qed.

(** The blocks the rules write are no matches of either rule. *)
Lemma written_blocks_refused l rest code :
  spaces_ok l = true -> forallb (mem K1) (dat l) = true ->
  match_at rexA (outA l ++ rest) = None /\
  match_at rexB (outA l ++ rest) = None /\
  match_at rexA (outB_with code l ++ rest) = None /\
  match_at rexB (outB_with code l ++ rest) = None.
Proof.
  intros Hs Hd. unfold outA, outB_with. rewrite <- !app_assoc.
  repeat split.
  - now apply rexA_needs_message.
  - now apply rexB_needs_false.
  - now apply rexA_needs_true.
  - now apply rexB_needs_message.
Qed.

Lemma settled_fixed t :
  silent rexA t = true -> silent rexB t = true -> transform t = t.
Proof.
  intros HA HB. unfold transform, ruleA, ruleB.
  rewrite (sub_silent rexA) by exact HA. now apply sub_silent.
Qed.




(** C5, as the code has it.  Whatever Rule A matches is a block with white
    space before return, a data expression without comma or closing brace,
    a message without closing brace and a semicolon right after the closing
    brace; whatever Rule B matches is such a block with the flag false and
    a message that begins with error.response and ends at the first place
    after it where white space, a closing brace and a semicolon follow.  A
    success block is no
    match of Rule A when the first comma after data: is not followed by
    message:, or when the first closing brace after the message is not
    followed by a semicolon. *)
Theorem rules_read_restricted_blocks :
  (forall s e ms, match_at rexA s = Some (e, ms) ->
     exists l v, s = blockA l ++ v /\ e = length (blockA l) /\
       spaces_ok l = true /\
       nonempty (dat l) = true /\ forallb (mem K1) (dat l) = true /\
       nonempty (msg l) = true /\ forallb (mem K2) (msg l) = true) /\
  (forall s e ms, match_at rexB s = Some (e, ms) ->
     exists l v, s = blockB l ++ v /\ e = length (blockB l) /\
       spaces_ok l = true /\
       nonempty (dat l) = true /\ forallb (mem K1) (dat l) = true /\
       starts_with (str "error.response") (msg l) = true /\
       forall z1 z2, skipn 14 (msg l) = z1 ++ z2 -> z2 <> [] ->
                     lead_close (z2 ++ ws_close l ++ closing l ++ v) = false) /\
  (forall l X, spaces_ok l = true -> forallb (mem K1) (dat l) = true ->
     lead (str "message:") X = false ->
     match_at rexA (head "true," l ++ X) = None) /\
  (forall l X, spaces_ok l = true -> forallb (mem K1) (dat l) = true ->
     forallb (mem K2) (msg l) = true -> starts_with (str ";") X = false ->
     match_at rexA (head "true," l ++ tail l ++ rbrace :: X) = None).
Proof.
  split; [exact rexA_shape|]. split; [exact rexB_first_close|].
  split; [exact rexA_needs_message | exact rexA_needs_semicolon].
Qed.

(** The data expression f(a, b) read up to its comma, and a block without
    its semicolon. *)
Lemma rules_read_restricted_blocks_witness :
  match_at rexA
    (head "true," (Layout sp sp sp sp sp sp (str "f(a") [] [] [] [] []) ++
     str " b), message: 'ok' };") = None /\
  match_at rexA (head "true," layA ++ tail layA ++ rbrace :: str " next") = None.
Proof.
  split.
  - apply (proj1 (proj2 (proj2 rules_read_restricted_blocks))); reflexivity.
  - apply (proj2 (proj2 (proj2 rules_read_restricted_blocks))); reflexivity.
Defined.

(** C5 as stated fails: a data expression with a comma that is followed by
    message: is cut at that comma, and the block is rewritten. *)
Lemma comma_in_string_rewritten :
  transform comma_in_string =
  str " return { success: true, data: 'a, timestamp: new Date().toISOString()};" /\
  transform comma_in_string <> comma_in_string.
Proof.
  split; [vm_compute; reflexivity|].
  intros H. apply (f_equal (occurs (str "timestamp"))) in H.
  vm_compute in H. discriminate H.
Qed.

Lemma rexB_rexA_disjoint s e ms :
  match_at rexB s = Some (e, ms) -> match_at rexA s = None.
Proof.
  intros HB. destruct (match_at rexA s) as [[e' ms']|] eqn:HA; [|reflexivity].
  apply rexA_rexB_disjoint in HA. congruence.
Qed.







End Properties.

(** * The properties of the script *)

Module ScriptProperties.
Import RegexFacts MatchFacts SubFacts BlockFacts ShapeFacts ScriptFacts.

(** C7.  Two runs in worlds whose target file is the same end the same way,
    write the same file and print the same lines, whatever the clocks (and
    everything else) of the two worlds are; what the rules insert for the
    timestamp is the text new Date().toISOString() itself. *)
Theorem output_independent_of_clock `{Codec} :
  (forall w1 w2, fs w1 !! target = fs w2 !! target ->
     snd (run w1) = snd (run w2) /\
     fs (fst (run w1)) !! target = fs (fst (run w2)) !! target /\
     skipn (length (stdout w1)) (stdout (fst (run w1))) =
     skipn (length (stdout w2)) (stdout (fst (run w2)))) /\
  (forall l post, okA l = true -> tight post = true ->
     ruleA (blockA l ++ post) =
     head "true," l ++ str " timestamp: new Date().toISOString()" ++
     closing l ++ ruleA post) /\
  (forall l post, okB l = true -> tight post = true ->
     exists x, ruleB (blockB l ++ post) =
     head "false," l ++ x ++ msg l ++
     str " }, timestamp: new Date().toISOString()" ++ closing l ++ ruleB post).
Proof.
  split; [exact same_target_same_result|]. split.
  - intros l post Hok Hpost. rewrite ruleA_block by assumption.
    unfold outA, stamp. now rewrite <- !app_assoc.
  - intros l post Hok Hpost.
    exists (str " error: { code: " ++ code_text ++ str ", message: ").
    rewrite ruleB_block by assumption.
    unfold outB, outB_with. now rewrite <- !app_assoc.
Qed.

Lemma output_independent_of_clock_witness :
  snd (run (world_of disk 0)) = snd (run (world_of disk 1718000000)) /\
  fs (fst (run (world_of disk 0))) !! target =
  fs (fst (run (world_of disk 1718000000))) !! target.
Proof.
  destruct (proj1 (@output_independent_of_clock ascii_codec)
              (world_of disk 0) (world_of disk 1718000000) eq_refl)
    as (H1 & H2 & _).
  split; [exact H1 | exact H2].
Defined.





(** C10.  When the target is missing, cannot be read or cannot be decoded,
    the run ends with an exception, the file system and the standard output
    are as before, and none of the run's events opens a file for writing or
    writes one. *)
Theorem read_failure_leaves_file `{Codec} (w : world) :
  fs w !! target = None \/
  (exists f, fs w !! target = Some f /\
             (readable f = false \/ decode (bytes f) = None)) ->
  exists e evs,
    snd (run w) = inl e /\ fs (fst (run w)) = fs w /\
    stdout (fst (run w)) = stdout w /\
    trace (fst (run w)) = trace w ++ evs /\ existsb is_write evs = false.
Proof.
  intros Hbad.
  destruct (run_cases w) as
    [[Hf R1] | [(f & Hf & Hr & R1) | [(f & Hf & Hr & Hd & R1) |
     [(f & t & Hf & Hr & Hd & Hw & R1) | (f & t & Hf & Hr & Hd & Hw & _)]]]].
  - rewrite R1. exists FileNotFoundError, [EvOpen target ModeR utf8]. auto.
  - rewrite R1. exists PermissionError, [EvOpen target ModeR utf8]. auto.
  - rewrite R1.
    exists UnicodeDecodeError, [EvOpen target ModeR utf8; EvRead target].
    simpl. rewrite <- app_assoc. auto.
  - exfalso. destruct Hbad as [Hn | (f' & Hf' & [Hr' | Hd'])]; congruence.
  - exfalso. destruct Hbad as [Hn | (f' & Hf' & [Hr' | Hd'])]; congruence.
Qed.

Lemma read_failure_leaves_file_witness :
  (exists e evs,
      snd (run (world_of disk_missing 0)) = inl e /\
      fs (fst (run (world_of disk_missing 0))) = disk_missing /\
      stdout (fst (run (world_of disk_missing 0))) = [] /\
      trace (fst (run (world_of disk_missing 0))) = [] ++ evs /\
      existsb is_write evs = false) /\
  (exists e evs,
      snd (run (world_of disk_binary 0)) = inl e /\
      fs (fst (run (world_of disk_binary 0))) = disk_binary /\
      stdout (fst (run (world_of disk_binary 0))) = [] /\
      trace (fst (run (world_of disk_binary 0))) = [] ++ evs /\
      existsb is_write evs = false).
Proof.
  split.
  - apply (@read_failure_leaves_file ascii_codec (world_of disk_missing 0)).
    left. reflexivity.
  - apply (@read_failure_leaves_file ascii_codec (world_of disk_binary 0)).
    right. exists (file_of [255%N]). split.
    + apply lookup_singleton_eq.
    + right. reflexivity.
Defined.

End ScriptProperties.

(** * More about the rules and the script *)

Module Extras.
Import RegexFacts MatchFacts SubFacts BlockFacts ShapeFacts ScriptFacts.

Lemma in_firstn (c : char) n (l : text) : In c (firstn n l) -> In c l.
Proof.
  revert l. induction n as [|n IH]; intros [|x l]; simpl; try tauto.
  intros [->|Hc]; auto.
Qed.

Lemma in_skipn (c : char) n (l : text) : In c (skipn n l) -> In c l.
Proof.
  revert l. induction n as [|n IH]; intros [|x l]; simpl; try tauto.
  intros Hc. right. auto.
Qed.

Lemma in_group c g ms s : In c (group g ms s) -> In c s.
Proof.
  unfold group, slice.
  destruct (open_of g ms); [|contradiction].
  destruct (close_of g ms); [|contradiction].
  intros Hc. eapply in_skipn, in_firstn, Hc.
Qed.

Lemma in_expand c t ms s :
  In c (expand t ms s) -> In c s \/ In c (tpl_chars t).
Proof.
  induction t as [|[u|g] t IH]; simpl; [tauto| |]; rewrite !in_app_iff.
  - intros [Hc|Hc]; [tauto|]. destruct (IH Hc); tauto.
  - intros [Hc|Hc]; [left; eapply in_group, Hc | auto].
Qed.

(** [re.sub] writes characters of its input and of its template only. *)
Lemma in_sub_fuel r t c : forall f s,
  In c (sub_fuel f r t s) -> In c s \/ In c (tpl_chars t).
Proof.
  induction f as [|f IH]; intros s; simpl; [tauto|].
  assert (Hstep : In c match s with [] => [] | x :: s' => x :: sub_fuel f r t s' end ->
                  In c s \/ In c (tpl_chars t)).
  { destruct s as [|x s']; simpl; [tauto|].
    intros [->|Hc]; [tauto|]. destruct (IH _ Hc); tauto. }
  destruct (match_at r s) as [[e ms]|]; [|exact Hstep].
  rewrite in_app_iff. intros [Hc|Hc].
  - now apply in_expand in Hc.
  - destruct (e =? 0); [auto|].
    destruct (IH _ Hc) as [Hs|]; [|tauto]. left. eapply in_skipn, Hs.
Qed.

Lemma ascii_tplA c : In c (tpl_chars tplA) -> (c < 128)%N.
Proof.
  assert (H : forallb (fun x => (x <? 128)%N) (tpl_chars tplA) = true)
    by reflexivity.
  rewrite forallb_forall in H. intros Hc. now apply N.ltb_lt, H.
Qed.

Lemma ascii_tplB c : In c (tpl_chars tplB) -> (c < 128)%N.
Proof.
  assert (H : forallb (fun x => (x <? 128)%N) (tpl_chars tplB) = true)
    by reflexivity.
  rewrite forallb_forall in H. intros Hc. now apply N.ltb_lt, H.
Qed.

(** X3.  Every character of the transformed text is a character of the
    input or a literal character of one of the two replacement templates
    (all of them ASCII): the rules bring in nothing else. *)
Theorem transform_alphabet t c :
  In c (transform t) ->
  In c t \/
  ((In c (tpl_chars tplA) \/ In c (tpl_chars tplB)) /\ (c < 128)%N).
Proof.
  unfold transform, ruleB, ruleA, sub. intros Hc.
  apply in_sub_fuel in Hc. destruct Hc as [Hc|Hc].
  - apply in_sub_fuel in Hc. destruct Hc as [Hc|Hc]; [tauto|].
    right. split; [tauto | now apply ascii_tplA].
  - right. split; [tauto | now apply ascii_tplB].
Qed.

Theorem transform_keeps_ascii t :
  ascii_decode t = Some t -> ascii_decode (transform t) = Some (transform t).
Proof.
  unfold ascii_decode.
  destruct (forallb (fun b => (b <? 128)%N) t) eqn:Ht; [|discriminate]. intros _.
  assert (H : forallb (fun b => (b <? 128)%N) (transform t) = true).
  { rewrite forallb_forall in *. intros c Hc. apply N.ltb_lt.
    destruct (transform_alphabet t c Hc) as [Hin|[_ Hlt]]; [|assumption].
    now apply N.ltb_lt, Ht. }
  now rewrite H.
Qed.

Lemma starts_with_app p b : starts_with p (p ++ b) = true.
Proof. induction p as [|a p IH]; simpl; [reflexivity|]. now rewrite N.eqb_refl. Qed.

Lemma occurs_here p s : starts_with p s = true -> occurs p s = true.
Proof. intros H. destruct s; simpl in *; now rewrite H. Qed.

Lemma occurs_app_l p a b : occurs p b = true -> occurs p (a ++ b) = true.
Proof.
  intros H. induction a as [|c a IH]; [exact H|].
  simpl. rewrite IH. apply orb_true_r.
Qed.

Lemma occurs_front p b : occurs p (p ++ b) = true.
Proof. apply occurs_here, starts_with_app. Qed.

(** What a match of either rule must hold. *)
Lemma rexA_literals s e ms : match_at rexA s = Some (e, ms) ->
  occurs (str "return") s = true /\ occurs (str "message:") s = true /\
  occurs (str "};") s = true.
Proof.
  intros Hm. apply rexA_shape in Hm. destruct Hm as (l & v & -> & _).
  unfold blockA, block, head, tail, before_msg, closing.
  rewrite <- !app_assoc. repeat split.
  - apply occurs_app_l, occurs_front.
  - do 14 apply occurs_app_l. apply occurs_front.
  - do 18 apply occurs_app_l. apply occurs_front.
Qed.

Lemma rexB_literals s e ms : match_at rexB s = Some (e, ms) ->
  occurs (str "return") s = true /\ occurs (str "message:") s = true /\
  occurs (str "};") s = true.
Proof.
  intros Hm. apply rexB_shape in Hm. destruct Hm as (l & v & -> & _).
  unfold blockB, block, head, tail, before_msg, closing.
  rewrite <- !app_assoc. repeat split.
  - apply occurs_app_l, occurs_front.
  - do 14 apply occurs_app_l. apply occurs_front.
  - do 18 apply occurs_app_l. apply occurs_front.
Qed.

Lemma absent_quiet r p :
  (forall s e ms, match_at r s = Some (e, ms) -> occurs p s = true) ->
  forall n t, occurs p t = false -> quiet r n t = true.
Proof.
  intros Hr. induction n as [|n IH]; intros t Ht; [reflexivity|].
  simpl. apply andb_true_intro. split.
  - unfold no_match. destruct (match_at r t) as [[e ms]|] eqn:Hm; [|reflexivity].
    apply Hr in Hm. congruence.
  - destruct t as [|c t]; [reflexivity|]. apply IH.
    simpl in Ht. apply orb_false_iff in Ht. tauto.
Qed.

Lemma absent_fixed p t :
  (forall s e ms, match_at rexA s = Some (e, ms) -> occurs p s = true) ->
  (forall s e ms, match_at rexB s = Some (e, ms) -> occurs p s = true) ->
  occurs p t = false -> transform t = t.
Proof.
  intros HA HB Ht. unfold transform, ruleA, ruleB.
  rewrite (sub_silent rexA) by (now apply (absent_quiet rexA p)).
  apply sub_silent. now apply (absent_quiet rexB p).
Qed.

(** X4.  A text in which the word return, the text message: or a closing
    brace followed by a semicolon does not occur is left as it is. *)
Theorem text_without_literal_unchanged t :
  occurs (str "return") t = false \/ occurs (str "message:") t = false \/
  occurs (str "};") t = false ->
  transform t = t.
Proof.
  intros [H | [H | H]].
  - apply (absent_fixed (str "return")); auto;
      intros s e ms Hm; [apply rexA_literals in Hm | apply rexB_literals in Hm];
      tauto.
  - apply (absent_fixed (str "message:")); auto;
      intros s e ms Hm; [apply rexA_literals in Hm | apply rexB_literals in Hm];
      tauto.
  - apply (absent_fixed (str "};")); auto;
      intros s e ms Hm; [apply rexA_literals in Hm | apply rexB_literals in Hm];
      tauto.
Qed.

(** The extent of a match. *)
Lemma block_starts_space flag l X :
  spaces_ok l = true ->
  exists c s', block flag l ++ X = c :: s' /\ is_space c = true.
Proof.
  unfold spaces_ok. rewrite !andb_true_iff. intros Hs.
  destruct Hs as (((((((((((S1 & N1) & _) & _) & _) & _) & _) & _) & _) & _) & _) & _).
  unfold block, head. destruct (ws_ret l) as [|c w]; [discriminate|].
  simpl in S1. apply andb_prop in S1. destruct S1 as [Hc _].
  rewrite <- !app_assoc. simpl. eauto.
Qed.

Lemma nonempty_length (w : text) : nonempty w = true -> 1 <= length w.
Proof. destruct w; [discriminate | simpl; lia]. Qed.

Lemma starts_with_length p s : starts_with p s = true -> length p <= length s.
Proof.
  revert s. induction p as [|a p IH]; intros s H; simpl; [lia|].
  destruct s as [|b s]; [discriminate|]. simpl in *.
  apply andb_prop in H. destruct H as [_ H]. apply IH in H. lia.
Qed.

(** X6.  A match of Rule A begins with a white-space character, covers at
    least 40 characters and ends inside the text; a match of Rule B
    likewise, with at least 54 characters.  No match is empty. *)
Theorem match_extent :
  (forall s e ms, match_at rexA s = Some (e, ms) ->
     40 <= e <= length s /\ exists c s', s = c :: s' /\ is_space c = true) /\
  (forall s e ms, match_at rexB s = Some (e, ms) ->
     54 <= e <= length s /\ exists c s', s = c :: s' /\ is_space c = true).
Proof.
  split; intros s e ms Hm.
  - apply rmatch_bound in Hm as Hb. apply rexA_shape in Hm.
    destruct Hm as (l & v & -> & -> & Hs & Hd & _ & Hmg & _).
    split; [|now apply block_starts_space]. split; [|lia].
    apply nonempty_length in Hd, Hmg.
    apply spaces_ok_inv in Hs as Hs'. unfold spaces_ok in Hs.
    rewrite !andb_true_iff in Hs.
    destruct Hs as (((((((((((_ & N1) & _) & N2) & _) & _) & _) & _) & _) & _) & _) & _).
    apply nonempty_length in N1, N2.
    unfold blockA, block, head, tail, before_msg, closing.
    rewrite !length_app. simpl length. lia.
  - apply rmatch_bound in Hm as Hb. apply rexB_shape in Hm.
    destruct Hm as (l & v & -> & -> & Hs & Hd & _ & Hmg).
    split; [|now apply block_starts_space]. split; [|lia].
    apply nonempty_length in Hd. apply starts_with_length in Hmg.
    unfold spaces_ok in Hs. rewrite !andb_true_iff in Hs.
    destruct Hs as (((((((((((_ & N1) & _) & N2) & _) & _) & _) & _) & _) & _) & _) & _).
    apply nonempty_length in N1, N2.
    unfold blockB, block, head, tail, before_msg, closing.
    rewrite !length_app. simpl length in *. lia.
Qed.

Lemma block_unled flag l : block flag l = ws_ret l ++ unled flag l.
Proof.
  unfold unled, block, head. rewrite <- !app_assoc.
  now rewrite drop_app_length.
Qed.

Lemma tight_unled flag l X : tight (unled flag l ++ X) = true.
Proof.
  unfold unled, block, head. rewrite <- !app_assoc.
  now rewrite drop_app_length.
Qed.

Lemma block_widen flag l w : block flag (widen l w) = block flag l ++ w.
Proof.
  unfold block, head, tail, before_msg, closing, widen.
  cbn [ws_ret ws_brace ws_succ ws_flag ws_data ws_dat dat ws_msg ws_val msg
       ws_close ws_end].
  now rewrite <- !app_assoc.
Qed.

Lemma outA_widen l w : outA (widen l w) = outA l ++ w.
Proof.
  unfold outA, head, closing, widen.
  cbn [ws_ret ws_brace ws_succ ws_flag ws_data ws_dat dat ws_msg ws_val msg
       ws_close ws_end].
  now rewrite <- !app_assoc.
Qed.

Lemma outB_widen l w : outB (widen l w) = outB l ++ w.
Proof.
  unfold outB, outB_with, head, closing, widen.
  cbn [ws_ret ws_brace ws_succ ws_flag ws_data ws_dat dat ws_msg ws_val msg
       ws_close ws_end].
  now rewrite <- !app_assoc.
Qed.

Lemma spaces_ok_widen l w :
  spaces_ok l = true -> all_space w = true -> spaces_ok (widen l w) = true.
Proof.
  unfold spaces_ok, widen, all_space.
  cbn [ws_ret ws_brace ws_succ ws_flag ws_data ws_dat dat ws_msg ws_val msg
       ws_close ws_end].
  rewrite forallb_app, !andb_true_iff. tauto.
Qed.

Lemma okA_widen l w :
  okA l = true -> all_space w = true -> okA (widen l w) = true.
Proof.
  unfold okA. rewrite !andb_true_iff. intros ((((Hs & Hd) & H1) & H2) & H3) Hw.
  repeat split; auto. now apply spaces_ok_widen.
Qed.

Lemma okB_widen l w :
  okB l = true -> all_space w = true -> okB (widen l w) = true.
Proof.
  unfold okB. rewrite !andb_true_iff. intros ((((Hs & Hd) & H1) & H2) & H3) Hw.
  repeat split; auto. now apply spaces_ok_widen.
Qed.

Lemma okA_lead l : okA l = true -> all_space (ws_ret l) = true.
Proof. intros H. apply okA_inv in H. destruct H as (Hs & _).
  now apply spaces_ok_inv in Hs. Qed.

Lemma okB_lead l : okB l = true -> all_space (ws_ret l) = true.
Proof. intros H. apply okB_inv in H. destruct H as (Hs & _).
  now apply spaces_ok_inv in Hs. Qed.

(** X5.  A block that follows a rewritten block of the same rule with only
    white space between them is copied as it is, although the rule
    rewrites it when it stands alone: the white space before its return was
    consumed by the match of the first block.  (No match begins inside
    the second block after its return.) *)
Theorem adjacent_block_skipped :
  (forall l1 l2 post,
      okA l1 = true -> okA l2 = true -> tight post = true ->
      quiet rexA (length (unled "true," l2)) (unled "true," l2 ++ post) = true ->
      ruleA (blockA l2 ++ post) = outA l2 ++ ruleA post /\
      ruleA (blockA l1 ++ blockA l2 ++ post) =
      outA l1 ++ blockA l2 ++ ruleA post) /\
  (forall l1 l2 post,
      okB l1 = true -> okB l2 = true -> tight post = true ->
      quiet rexB (length (unled "false," l2)) (unled "false," l2 ++ post) = true ->
      ruleB (blockB l2 ++ post) = outB l2 ++ ruleB post /\
      ruleB (blockB l1 ++ blockB l2 ++ post) =
      outB l1 ++ blockB l2 ++ ruleB post).
Proof.
  split; intros l1 l2 post H1 H2 Hpost Hq.
  - split; [now apply ruleA_block|].
    unfold blockA at 2. rewrite (block_unled "true," l2).
    rewrite <- app_assoc, app_assoc. unfold blockA.
    rewrite <- block_widen. fold (blockA (widen l1 (ws_ret l2))).
    rewrite ruleA_block;
      [| apply okA_widen; [exact H1 | now apply okA_lead] | apply tight_unled].
    rewrite outA_widen, (ruleA_skip _ _ Hq).
    rewrite (block_unled "true," l2). now rewrite <- !app_assoc.
  - split; [now apply ruleB_block|].
    unfold blockB at 2. rewrite (block_unled "false," l2).
    rewrite <- app_assoc, app_assoc. unfold blockB.
    rewrite <- block_widen. fold (blockB (widen l1 (ws_ret l2))).
    rewrite ruleB_block;
      [| apply okB_widen; [exact H1 | now apply okB_lead] | apply tight_unled].
    rewrite outB_widen, (ruleB_skip _ _ Hq).
    rewrite (block_unled "false," l2). now rewrite <- !app_assoc.
Qed.


Lemma spacefree_front r tpl u v :
  (forall s, tight s = true -> match_at r s = None) ->
  forallb (fun c => negb (is_space c)) u = true ->
  sub r tpl (u ++ v) = u ++ sub r tpl v.
Proof.
  intros Hr. induction u as [|c u IH]; intros Hu; [reflexivity|].
  simpl in Hu. apply andb_prop in Hu. destruct Hu as [Hc Hu].
  simpl. rewrite sub_cons_quiet.
  - f_equal. auto.
  - apply no_match_None, Hr. exact Hc.
Qed.

(** X7.  Characters at the front of the text that are not white space are
    copied by both rules, and what the rules do with the rest does not
    depend on them. *)
Theorem spacefree_prefix_kept u v :
  forallb (fun c => negb (is_space c)) u = true ->
  ruleA (u ++ v) = u ++ ruleA v /\ ruleB (u ++ v) = u ++ ruleB v /\
  transform (u ++ v) = u ++ transform v.
Proof.
  intros Hu.
  assert (HA : forall x, ruleA (u ++ x) = u ++ ruleA x)
    by (intros x; apply spacefree_front; [exact tight_no_match_A | exact Hu]).
  assert (HB : forall x, ruleB (u ++ x) = u ++ ruleB x)
    by (intros x; apply spacefree_front; [exact tight_no_match_B | exact Hu]).
  repeat split; auto. unfold transform. now rewrite HA, HB.
Qed.


Section ExtraRuns.
Context `{Codec}.

(** X2.  Two runs in a row, when the codec reads back what it wrote: the
    second run succeeds too, the target holds the text transformed twice,
    the confirmation was printed twice, and when the first run left no
    match the second leaves the file system as the first run left it. *)
Theorem two_runs (w : world) f t :
  fs w !! target = Some f -> readable f = true -> writable f = true ->
  decode (bytes f) = Some t ->
  decode (encode (transform t)) = Some (transform t) ->
  snd (run (fst (run w))) = inr tt /\
  fs (fst (run (fst (run w)))) !! target =
  Some (File (encode (transform (transform t))) true true) /\
  stdout (fst (run (fst (run w)))) = stdout w ++ [confirmation; confirmation] /\
  (silent rexA (transform t) = true -> silent rexB (transform t) = true ->
   fs (fst (run (fst (run w)))) = fs (fst (run w))).
Proof.
  intros Hf Hr Hw Hd Hrt. rewrite (run_ok w f t) by assumption. cbn [fst].
  rewrite (run_ok _ (File (encode (transform t)) true true) (transform t));
    try reflexivity; try assumption; [|cbn [fs]; apply lookup_insert_eq].
  cbn [fst snd fs stdout]. repeat split.
  - now rewrite lookup_insert_eq.
  - now rewrite <- app_assoc.
  - intros HA HB. rewrite (Properties.settled_fixed (transform t)) by assumption.
    apply insert_insert_eq.
Qed.


(** X8.  When neither pattern matches anywhere in the text, the run still
    succeeds, writes the target (the same text, encoded) and prints the
    confirmation; when encoding gives back the bytes that were read, the
    file system is as before. *)
Theorem confirmed_without_change (w : world) f t :
  fs w !! target = Some f -> readable f = true -> writable f = true ->
  decode (bytes f) = Some t ->
  silent rexA t = true -> silent rexB t = true ->
  snd (run w) = inr tt /\
  stdout (fst (run w)) = stdout w ++ [confirmation] /\
  fs (fst (run w)) !! target = Some (File (encode t) true true) /\
  In (EvWrite target (encode t)) (trace (fst (run w))) /\
  (encode t = bytes f -> fs (fst (run w)) = fs w).
Proof.
  intros Hf Hr Hw Hd HA HB. rewrite (run_ok w f t) by assumption.
  rewrite (Properties.settled_fixed t HA HB). cbn [fst snd fs stdout trace].
  repeat split.
  - now rewrite lookup_insert_eq.
  - rewrite !in_app_iff. right. right. right. right. left. now left.
  - intros E. apply insert_id. rewrite Hf. f_equal.
    destruct f as [b r x]. simpl in *. now subst.
Qed.
End ExtraRuns.

Lemma transform_alphabet_witness :
  In 68%N (blockA layA ++ after) \/
  ((In 68%N (tpl_chars tplA) \/ In 68%N (tpl_chars tplB)) /\ (68 < 128)%N).
Proof.
  apply (transform_alphabet (blockA layA ++ after) 68%N).
  assert (H : existsb (N.eqb 68) (transform (blockA layA ++ after)) = true)
    by (vm_compute; reflexivity).
  apply existsb_exists in H. destruct H as (x & Hin & Heq).
  apply N.eqb_eq in Heq. now subst x.
Defined.

Lemma text_without_literal_unchanged_witness :
  transform (str " const x = { a: 1 }; ") = str " const x = { a: 1 }; ".
Proof.
  apply text_without_literal_unchanged. left. reflexivity.
Defined.

Lemma match_extent_witness :
  40 <= length (blockA layA) <= length (blockA layA ++ after) /\
  54 <= length (blockB layB) <= length (blockB layB ++ after).
Proof.
  split.
  - exact (proj1 (proj1 match_extent _ _ _ (matchA layA after eq_refl eq_refl))).
  - exact (proj1 (proj2 match_extent _ _ _ (matchB layB after eq_refl eq_refl))).
Defined.

Lemma adjacent_block_skipped_witness :
  ruleA (blockA layA ++ blockA layA ++ after) =
  outA layA ++ blockA layA ++ ruleA after /\
  ruleB (blockB layB ++ blockB layB ++ after) =
  outB layB ++ blockB layB ++ ruleB after.
Proof.
  split.
  - exact (proj2 (proj1 adjacent_block_skipped layA layA after
                    eq_refl eq_refl eq_refl eq_refl)).
  - exact (proj2 (proj2 adjacent_block_skipped layB layB after
                    eq_refl eq_refl eq_refl eq_refl)).
Defined.

Lemma spacefree_prefix_kept_witness :
  transform (str "export" ++ blockA layA ++ after) =
  str "export" ++ transform (blockA layA ++ after).
Proof.
  exact (proj2 (proj2 (spacefree_prefix_kept (str "export")
                         (blockA layA ++ after) eq_refl))).
Defined.

Lemma two_runs_witness :
  snd (run (fst (run (world_of disk 0)))) = inr tt /\
  stdout (fst (run (fst (run (world_of disk 0))))) = [confirmation; confirmation].
Proof.
  destruct (@two_runs ascii_codec (world_of disk 0)
              (file_of (before ++ blockA layA ++ after))
              (before ++ blockA layA ++ after)
              (lookup_singleton_eq _ _) eq_refl eq_refl eq_refl eq_refl)
    as (H1 & _ & H3 & _).
  split; [exact H1 | exact H3].
Defined.

Lemma confirmed_without_change_witness :
  snd (run (world_of disk_plain 0)) = inr tt /\
  stdout (fst (run (world_of disk_plain 0))) = [confirmation] /\
  fs (fst (run (world_of disk_plain 0))) = disk_plain.
Proof.
  destruct (@confirmed_without_change ascii_codec (world_of disk_plain 0)
              (file_of plain_error) plain_error
              (lookup_singleton_eq _ _) eq_refl eq_refl eq_refl eq_refl eq_refl)
    as (H1 & H2 & _ & _ & H5).
  split; [exact H1|]. split; [exact H2 | exact (H5 eq_refl)].
Defined.

End Extras.
